(** * Memories and ROMs of PyRTL's example 6, and the cycle-based simulator
    that drives them.

    The notebook [ipynb-examples/example6-memory.ipynb] builds two circuits
    (two memory blocks written through enabled write ports, and two ROM
    blocks compared with each other) and simulates them.  The circuits, their
    stimulus and the simulation loops are embedded from the notebook; the
    storage elements, the write-enable gating and the simulation driver they
    call belong to the PyRTL library and are modelled from its specification. *)

From Stdlib Require Import Ascii.
From stdpp Require Import gmap strings list fin_maps.

Local Open Scope Z_scope.

(** ** Bit-vector values *)

Module BitVector.

(** Modelled from the spec: the BitVector of the data model, which is not
    part of the notebook: a value of width [width] is an unsigned integer
    in [[0, 2^width)]. *)
Definition fits (width value : Z) : bool :=
  bool_decide (0 ≤ value < 2 ^ width).

(** Modelled from the spec: the explicit truncation rule of the BitVector
    invariant (no operation silently leaves [[0, 2^width)]): a value
    connected to a wire keeps its low [width] bits. *)
Definition truncate (width value : Z) : Z := value `mod` 2 ^ width.

End BitVector.

Import BitVector.

(** ** Wires *)

(** Modelled from the spec: the roles of a Wire. *)
Inductive Role := RoleInput | RoleOutput | RoleInternal | RoleRegisterOutput.

(** Modelled from the spec: the Wire of the data model ([id], [bitwidth],
    [role]); the notebook creates wires with [Input], [Output] and
    [Register]. *)
Record Wire := {
  wire_name : string;
  wire_bitwidth : Z;
  wire_role : Role
}.

(** Modelled from the spec: [Input(bitwidth, name)] of the library, a Wire
    of role Input. *)
Definition Input (bitwidth : Z) (name : string) : Wire :=
  {| wire_name := name; wire_bitwidth := bitwidth; wire_role := RoleInput |}.

(** Modelled from the spec: [Output(bitwidth, name)] of the library, a Wire
    of role Output. *)
Definition Output (bitwidth : Z) (name : string) : Wire :=
  {| wire_name := name; wire_bitwidth := bitwidth; wire_role := RoleOutput |}.

(** Modelled from the spec: [Register(bitwidth, name)] of the library; the
    wire is the output of the register, which carries its [current] value. *)
Definition Register (bitwidth : Z) (name : string) : Wire :=
  {| wire_name := name; wire_bitwidth := bitwidth; wire_role := RoleRegisterOutput |}.

(** Modelled from the spec: [r.next], the wire of the [next_expr] of
    register [r], of the width of the register. *)
Definition next (r : Wire) : Wire :=
  {| wire_name := wire_name r +:+ ".next";
     wire_bitwidth := wire_bitwidth r;
     wire_role := RoleInternal |}.

(** Modelled from the spec: the value a wire carries in the current cycle,
    looked up by the wire's name in the values the evaluator has produced. *)
Definition value (wires : gmap string Z) (w : Wire) : Z :=
  default 0 (wires !! wire_name w).

(** Modelled from the spec: [dest <<= v] of the library.  The destination
    wire takes the value, truncated to its own width as the BitVector
    invariant asks. *)
Definition connect (dest : Wire) (v : Z) (wires : gmap string Z) : gmap string Z :=
  <[wire_name dest := truncate (wire_bitwidth dest) v]> wires.

(** Modelled from the spec: [select] of the library, a multiplexer on a
    one-bit selector, which the notebook calls as
    [select(sel, falsecase=..., truecase=...)]: [truecase] unless the
    selector is zero. *)
Definition select (sel falsecase truecase : Z) : Z :=
  if bool_decide (sel = 0) then falsecase else truecase.

(** Modelled from the spec: [a == b] of the library, the comparison of two
    bit-vector values as a one-bit value. *)
Definition equal (a b : Z) : Z := if bool_decide (a = b) then 1 else 0.

(** ** Storage elements *)

Module Storage.

(** Modelled from the spec: [kind ∈ {RAM, ROM}]. *)
Inductive Kind := RAM | ROM.

(** Modelled from the spec: the ReadPort of the data model.  The ports are
    kept in the element that owns them, so the back-reference to the owner
    is not a field. *)
Record ReadPort := { rp_address_wire : Wire }.

(** Modelled from the spec: the WritePort of the data model; without an
    enable wire the port is always enabled. *)
Record WritePort := {
  address_wire : Wire;
  data_wire : Wire;
  enable_wire : option Wire
}.

(** Modelled from the spec: the StorageElement of the data model.  The
    [contents] field holds the contents fixed at construction (all of a
    ROM, nothing for a RAM); the contents a simulation works on live in its
    SimulationState.  [name] is the logical name, which two elements may
    share; [id] tells the instances apart. *)
Record StorageElement := {
  id : string;
  name : string;
  bitwidth : Z;
  addrwidth : Z;
  kind : Kind;
  contents : gmap Z Z;
  read_ports : list ReadPort;
  write_ports : list WritePort
}.

(** Modelled from the spec: [read(address)], a pure lookup against the
    current contents with the address masked to [[0, 2^addrwidth)]; an
    address never written reads as zero. *)
Definition read (addrwidth : Z) (contents : gmap Z Z) (address : Z) : Z :=
  default 0 (contents !! truncate addrwidth address).

(** Modelled from the spec: write-enable gating,
    [effective_enable = enable_wire.value != 0] when an enable wire is
    present, else [true]. *)
Definition effective_enable (enable : option Z) : bool :=
  match enable with
  | Some v => negb (bool_decide (v = 0))
  | None => true
  end.

(** Modelled from the spec: a pending write, the staged
    [(address, data, enabled)] triple of a write port. *)
Record PendingWrite := {
  pw_address : Z;
  pw_data : Z;
  pw_enabled : bool
}.

(** Modelled from the spec: [stage_write(address, data, enabled)] records a
    pending write and leaves the contents alone. *)
Definition stage_write (pending : list PendingWrite) (address data : Z) (enabled : bool)
  : list PendingWrite :=
  pending ++ [{| pw_address := address; pw_data := data; pw_enabled := enabled |}].

(** Modelled from the spec: the effect of one staged write at commit; a
    write that is not enabled changes nothing. *)
Definition apply_write (contents : gmap Z Z) (w : PendingWrite) : gmap Z Z :=
  if pw_enabled w then <[pw_address w := pw_data w]> contents else contents.

(** Modelled from the spec: [commit_pending_writes()], which applies the
    writes staged this cycle in the order their ports were declared, so
    that the last-registered enabled port wins on a shared address. *)
Definition commit_pending_writes (contents : gmap Z Z) (pending : list PendingWrite)
  : gmap Z Z :=
  foldl apply_write contents pending.

(** Modelled from the spec: the evaluator stages, for every write port in
    declaration order, the triple read off the wire values of the cycle. *)
Definition stage_port (wires : gmap string Z) (pending : list PendingWrite) (wp : WritePort)
  : list PendingWrite :=
  stage_write pending (value wires (address_wire wp)) (value wires (data_wire wp))
    (effective_enable (value wires <$> enable_wire wp)).

(** The triple one write port stages. *)
Definition staged (wires : gmap string Z) (wp : WritePort) : PendingWrite :=
  {| pw_address := value wires (address_wire wp);
     pw_data := value wires (data_wire wp);
     pw_enabled := effective_enable (value wires <$> enable_wire wp) |}.

Definition stage_ports (wires : gmap string Z) (ports : list WritePort) : list PendingWrite :=
  foldl (stage_port wires) [] ports.

(** *** Construction *)

(** Modelled from the spec: [MemBlock(bitwidth, addrwidth, name)] of the
    library, a RAM that has no ports yet and no contents fixed at
    construction.  [id] is the identity of the instance, which the Python
    object carries implicitly. *)
Definition MemBlock (id : string) (bitwidth addrwidth : Z) (name : string) : StorageElement :=
  {| id := id; name := name; bitwidth := bitwidth; addrwidth := addrwidth;
     kind := RAM; contents := ∅; read_ports := []; write_ports := [] |}.

(** Modelled from the spec: [MemBlock.EnabledWrite(data, enable)] of the
    library, the data wire and the enable wire of a gated write. *)
Record EnabledWrite := { data : Wire; enable : Wire }.

(** Modelled from the spec: [mem[addr]] used as a source declares one more
    read port on the element. *)
Definition add_read_port (m : StorageElement) (addr : Wire) : StorageElement :=
  {| id := id m; name := name m; bitwidth := bitwidth m; addrwidth := addrwidth m;
     kind := kind m; contents := contents m;
     read_ports := read_ports m ++ [{| rp_address_wire := addr |}];
     write_ports := write_ports m |}.

(** Modelled from the spec: one more write port, after those already
    declared. *)
Definition add_write_port (m : StorageElement) (wp : WritePort) : StorageElement :=
  {| id := id m; name := name m; bitwidth := bitwidth m; addrwidth := addrwidth m;
     kind := kind m; contents := contents m;
     read_ports := read_ports m;
     write_ports := write_ports m ++ [wp] |}.

(** Modelled from the spec: [mem[addr] <<= EnabledWrite(data, enable)] of
    the library, a write port gated by an enable wire. *)
Definition write_enabled (m : StorageElement) (addr : Wire) (w : EnabledWrite) : StorageElement :=
  add_write_port m
    {| address_wire := addr; data_wire := data w; enable_wire := Some (enable w) |}.

(** Modelled from the spec: [mem[addr] <<= data] of the library, a write
    port without enable wire, which is always enabled. *)
Definition write_always (m : StorageElement) (addr data : Wire) : StorageElement :=
  add_write_port m
    {| address_wire := addr; data_wire := data; enable_wire := None |}.

(** Modelled from the spec: the two ways of defining the contents of a ROM,
    a total function from addresses to values or a sequence of values. *)
Inductive RomData :=
| RomFunction (f : Z → Z)
| RomSequence (l : list Z).

(** The value the defining function or sequence produces at an address. *)
Definition romdata_at (romdata : RomData) (address : Z) : option Z :=
  match romdata with
  | RomFunction f => Some (f address)
  | RomSequence l => l !! Z.to_nat address
  end.

(** Modelled from the spec: the contents of a ROM, which cover every
    address of [[0, 2^addrwidth)] the definition gives a value for. *)
Definition rom_contents (addrwidth : Z) (romdata : RomData) : gmap Z Z :=
  list_to_map (omap (λ a, (a ,.) <$> romdata_at romdata a) (seqZ 0 (2 ^ addrwidth))).

(** Modelled from the spec: [RomBlock(bitwidth, addrwidth, romdata,
    max_read_ports)] of the library.  The contents are fixed here, from the
    function or the sequence.  The storage model of the spec places no bound
    on the number of read ports, so [max_read_ports] is accepted and not
    interpreted. *)
Definition RomBlock (id : string) (bitwidth addrwidth : Z) (romdata : RomData)
    (max_read_ports : nat) : StorageElement :=
  {| id := id; name := id; bitwidth := bitwidth; addrwidth := addrwidth;
     kind := ROM; contents := rom_contents addrwidth romdata;
     read_ports := []; write_ports := [] |}.

(** *** Invariants checked when a circuit graph is accepted *)

(** An address of the element: [0 ≤ address < 2^addrwidth]. *)
Definition in_range (m : StorageElement) (address : Z) : Prop :=
  0 ≤ address < 2 ^ addrwidth m.

(** Modelled from the spec: the definition of a ROM is total and
    width-valid, so every address holds a value of the ROM's width. *)
Definition rom_total (m : StorageElement) : bool :=
  forallb (λ a, match contents m !! a with
                | Some v => fits (bitwidth m) v
                | None => false
                end) (seqZ 0 (2 ^ addrwidth m)).

(** Modelled from the spec: no width mismatch between a port and the
    element that owns it. *)
Definition read_port_ok (m : StorageElement) (rp : ReadPort) : bool :=
  bool_decide (wire_bitwidth (rp_address_wire rp) = addrwidth m).

Definition write_port_ok (m : StorageElement) (wp : WritePort) : bool :=
  bool_decide (wire_bitwidth (address_wire wp) = addrwidth m)
  && bool_decide (wire_bitwidth (data_wire wp) = bitwidth m)
  && match enable_wire wp with
     | Some en => bool_decide (wire_bitwidth en = 1)
     | None => true
     end.

(** Modelled from the spec: the invariant of the data model: at least one
    read port; a RAM has at least one write port, a ROM none and total
    contents; ports agree in width with their owner. *)
Definition storage_ok (m : StorageElement) : bool :=
  bool_decide (0 ≤ addrwidth m) && bool_decide (0 < bitwidth m)
  && negb (bool_decide (read_ports m = []))
  && forallb (read_port_ok m) (read_ports m)
  && forallb (write_port_ok m) (write_ports m)
  && match kind m with
     | RAM => negb (bool_decide (write_ports m = []))
     | ROM => bool_decide (write_ports m = []) && rom_total m
     end.

End Storage.

Import Storage.

(** ** Circuit graph and simulation driver *)

(** Modelled from the spec: the error taxonomy. *)
Inductive ErrorKind :=
| GraphConstruction
| CombinationalCycle
| EvaluationOrderViolation
| InputMismatch
| InvalidPhase
| ReadOnlyViolation.

(** Modelled from the spec: the Circuit Graph as the driver needs it.  The
    combinational nets are one function from the sources of a cycle (input
    wires, register outputs, and the read ports of the storage elements,
    given as a read function) to the value of every wire. *)
Record Circuit := {
  input_wires : list Wire;
  registers : list Wire;
  storage : list StorageElement;
  combinational : (StorageElement → Z → Z) → gmap string Z → gmap string Z
}.

(** Modelled from the spec: graph acceptance, which rejects storage elements
    that break the data model and keeps distinct instances apart. *)
Definition accept (c : Circuit) : bool :=
  forallb storage_ok (storage c) && bool_decide (NoDup (id <$> storage c)).

(** Modelled from the spec: SimulationState, the only state that persists
    across cycles. *)
Record SimulationState := {
  register_values : gmap string Z;
  memory_contents : gmap string (gmap Z Z);
  cycle_index : nat
}.

(** Modelled from the spec: what a [step] call returns, the wire values of
    the cycle for the trace or an error. *)
Inductive StepResult :=
| Ok (wires : gmap string Z)
| Err (e : ErrorKind).

Module Driver.

(** Modelled from the spec: the current contents of a storage element, its
    entry in [memory_contents]. *)
Definition storage_contents (mc : gmap string (gmap Z Z)) (m : StorageElement) : gmap Z Z :=
  default ∅ (mc !! id m).

(** Modelled from the spec: the output of a read port of [m] in a cycle
    that starts in [st], [contents[address]] with the storage state as of the
    start of the cycle. *)
Definition read_port (st : SimulationState) (m : StorageElement) (address : Z) : Z :=
  read (addrwidth m) (storage_contents (memory_contents st) m) address.

(** Modelled from the spec: the contents a simulation starts from.  A ROM
    keeps the contents of its construction; a RAM takes its entry of the
    initial-value map, and nothing otherwise. *)
Definition initial_contents (memory_value_map : gmap string (gmap Z Z)) (m : StorageElement)
  : gmap Z Z :=
  match kind m with
  | ROM => contents m
  | RAM => default ∅ (memory_value_map !! id m)
  end.

(** Modelled from the spec: the initial-value map has an entry for a ROM. *)
Definition seeds_rom (memory_value_map : gmap string (gmap Z Z)) (m : StorageElement) : bool :=
  match kind m with
  | ROM => bool_decide (is_Some (memory_value_map !! id m))
  | RAM => false
  end.

(** Modelled from the spec: construction of a simulation with
    [configure(initial_memory_contents)]: seeding a ROM is a
    [ReadOnlyViolation]; registers start at zero and the cycle index at 0. *)
Definition Simulation (c : Circuit) (memory_value_map : gmap string (gmap Z Z))
  : ErrorKind + SimulationState :=
  if negb (accept c) then inl GraphConstruction
  else if existsb (seeds_rom memory_value_map) (storage c) then inl ReadOnlyViolation
  else inr {| register_values := list_to_map ((λ r, (wire_name r, 0)) <$> registers c);
              memory_contents :=
                list_to_map ((λ m, (id m, initial_contents memory_value_map m)) <$> storage c);
              cycle_index := 0 |}.

(** Modelled from the spec: the constraint of [step] on its input
    assignment: every Input wire has a value, and the value fits the
    wire. *)
Definition input_ok (input_assignment : gmap string Z) (w : Wire) : bool :=
  match input_assignment !! wire_name w with
  | Some v => fits (wire_bitwidth w) v
  | None => false
  end.

(** Modelled from the spec: the check of a whole input assignment. *)
Definition check_inputs (c : Circuit) (input_assignment : gmap string Z) : bool :=
  forallb (input_ok input_assignment) (input_wires c).

(** Modelled from the spec: the sources of the Evaluate phase, the register
    outputs and the input wires with their assigned values. *)
Definition sources (c : Circuit) (st : SimulationState) (input_assignment : gmap string Z)
  : gmap string Z :=
  foldr (λ w, <[wire_name w := value input_assignment w]>) (register_values st)
    (input_wires c).

(** Modelled from the spec: Evaluate, the value of every wire from the
    current state and the inputs of the cycle; the read ports see the state
    the cycle starts in. *)
Definition evaluate (c : Circuit) (st : SimulationState) (input_assignment : gmap string Z)
  : gmap string Z :=
  combinational c (read_port st) (sources c st input_assignment).

(** Modelled from the spec: Commit for registers,
    [current := next_expr.evaluated_value]. *)
Definition commit_registers (c : Circuit) (wires : gmap string Z) : gmap string Z :=
  list_to_map ((λ r, (wire_name r, value wires (next r))) <$> registers c).

(** Modelled from the spec: Commit for one storage element, whose staged
    writes are applied when at least one of them is enabled. *)
Definition commit_storage (wires : gmap string Z) (mc : gmap string (gmap Z Z))
    (m : StorageElement) : gmap string (gmap Z Z) :=
  let pending := stage_ports wires (write_ports m) in
  if existsb pw_enabled pending
  then <[id m := commit_pending_writes (storage_contents mc m) pending]> mc
  else mc.

(** Modelled from the spec: the Sequential State Committer, which commits
    the registers and every storage element and advances the cycle index. *)
Definition commit (c : Circuit) (st : SimulationState) (wires : gmap string Z)
  : SimulationState :=
  {| register_values := commit_registers c wires;
     memory_contents := foldl (commit_storage wires) (memory_contents st) (storage c);
     cycle_index := S (cycle_index st) |}.

(** Modelled from the spec: [step(input_assignment)].  A bad assignment
    fails the call with [InputMismatch] and the state stays; otherwise
    Evaluate and Commit run once, the cycle index advances and the wire
    values of the cycle are returned for the trace. *)
Definition step (c : Circuit) (st : SimulationState) (input_assignment : gmap string Z)
  : StepResult * SimulationState :=
  if check_inputs c input_assignment
  then let wires := evaluate c st input_assignment in (Ok wires, commit c st wires)
  else (Err InputMismatch, st).

(** Modelled from the spec: any sequence of [step] calls on one
    simulation; a failed call leaves the state to the next one. *)
Definition steps (c : Circuit) (st : SimulationState) (calls : list (gmap string Z))
  : SimulationState :=
  foldl (λ st a, (step c st a).2) st calls.

(** Modelled from the spec: a driving loop [for ...: sim.step(...)] with a
    trace, which the first error aborts; the trace has the wire values of
    every cycle. *)
Fixpoint run (c : Circuit) (st : SimulationState) (calls : list (gmap string Z))
  : ErrorKind + (list (gmap string Z) * SimulationState) :=
  match calls with
  | [] => inr ([], st)
  | a :: calls =>
      match step c st a with
      | (Ok wires, st') =>
          match run c st' calls with
          | inr (trace, st'') => inr (wires :: trace, st'')
          | inl e => inl e
          end
      | (Err e, _) => inl e
      end
  end.

End Driver.

Import Driver.

(** ** The notebook, part 1: two memories under the same stimulus *)

(** [int(ch)] on one character of a stimulus string: a decimal digit, or a
    [ValueError]. *)
Definition int (ch : ascii) : option Z :=
  let n := Z.of_nat (nat_of_ascii ch) in
  if bool_decide (48 ≤ n ≤ 57) then Some (n - 48) else None.

Module Memories.

Definition mem1_block : StorageElement := MemBlock "mem1" 32 3 "mem".
Definition mem2_block : StorageElement := MemBlock "mem2" 32 3 "mem".

Definition waddr : Wire := Input 3 "waddr".
Definition count : Wire := Register 3 "count".

Definition wdata : Wire := Input 32 "wdata".
Definition we : Wire := Input 1 "we".
Definition raddr : Wire := Input 3 "raddr".

Definition rdata1 : Wire := Output 32 "rdata1".
Definition rdata2 : Wire := Output 32 "rdata2".

Definition WE : Wire → Wire → EnabledWrite := Build_EnabledWrite.

(** [mem1] and [mem2] with the ports the notebook gives them:
    [rdata1 <<= mem1[raddr]], [mem1[waddr] <<= WE(wdata, we)] and
    [rdata2 <<= mem2[raddr]], [mem2[count] <<= WE(wdata, we)]. *)
Definition mem1 : StorageElement :=
  write_enabled (add_read_port mem1_block raddr) waddr (WE wdata we).
Definition mem2 : StorageElement :=
  write_enabled (add_read_port mem2_block raddr) count (WE wdata we).

Definition validate : Wire := Output 1 "validate".

(** The combinational nets, in the order of the notebook:
<<
    rdata1 <<= mem1[raddr]
    rdata2 <<= mem2[raddr]
    count.next <<= select(we, falsecase=count, truecase=count + 1)
    validate <<= waddr == count
>> *)
Definition nets (mem : StorageElement → Z → Z) (w : gmap string Z) : gmap string Z :=
  let w := connect rdata1 (mem mem1 (value w raddr)) w in
  let w := connect rdata2 (mem mem2 (value w raddr)) w in
  let w := connect (next count)
             (select (value w we) (value w count) (value w count + 1)) w in
  connect validate (equal (value w waddr) (value w count)) w.

Definition circuit : Circuit :=
  {| input_wires := [waddr; wdata; we; raddr];
     registers := [count];
     storage := [mem1; mem2];
     combinational := nets |}.

Definition simvals : list (string * string) :=
  [("we",    "00111111110000000000000000");
   ("waddr", "00012345670000000000000000");
   ("wdata", "00123456789990000000000000");
   ("raddr", "00000000000000000123456777")].

(** [{addr: 9 for addr in range(8)}] *)
Definition mem1_init : gmap Z Z := list_to_map ((λ addr, (addr, 9)) <$> seqZ 0 8).
Definition mem2_init : gmap Z Z := list_to_map ((λ addr, (addr, 9)) <$> seqZ 0 8).

(** [{mem1: mem1_init, mem2: mem2_init}] *)
Definition memvals : gmap string (gmap Z Z) :=
  {[ id mem1 := mem1_init; id mem2 := mem2_init ]}.

(** [{k: int(v[cycle]) for k, v in simvals.items()}]; [None] stands for
    the [IndexError] or [ValueError] Python would raise. *)
Definition provided_inputs (cycle : nat) : option (gmap string Z) :=
  list_to_map <$>
    mapM (λ kv, ch ← String.get cycle kv.2; n ← int ch; Some (kv.1, n)) simvals.

(** [range(len(simvals['we']))] *)
Definition cycles : list nat :=
  seq 0 (String.length (default "" ((list_to_map simvals : gmap string string) !! "we"))).

(** The simulation cell:
<<
    sim = pyrtl.Simulation(tracer=sim_trace, memory_value_map=memvals)
    for cycle in range(len(simvals['we'])):
        sim.step({k: int(v[cycle]) for k, v in simvals.items()})
>>
    The result is the trace and the final state, or [None] when an
    exception ends the cell. *)
Definition simulate : option (list (gmap string Z) * SimulationState) :=
  match Simulation circuit memvals with
  | inr sim =>
      inputs ← mapM provided_inputs cycles;
      match run circuit sim inputs with
      | inr r => Some r
      | inl _ => None
      end
  | inl _ => None
  end.

(** The values a wire takes over the cycles of the trace. *)
Definition sim_trace (w : Wire) : list Z :=
  match simulate with
  | Some (trace, _) => (λ wires, value wires w) <$> trace
  | None => []
  end.

(** The state after the first [n] cycles of the loop. *)
Definition state_after (n : nat) : option SimulationState :=
  match Simulation circuit memvals with
  | inr sim =>
      inputs ← mapM provided_inputs (take n cycles);
      match run circuit sim inputs with
      | inr r => Some r.2
      | inl _ => None
      end
  | inl _ => None
  end.

(** The values of a wire in the cycles in which a write occurs ([we] is 1). *)
Definition write_cycles (w : Wire) : list Z :=
  (filter (λ p, p.1 = 1) (zip (sim_trace we) (sim_trace w))).*2.

(** The input assignments of the cycles of the simulation cell, in order. *)
Definition stimulus : list (gmap string Z) :=
  default [] (mapM provided_inputs cycles).

(** The state the simulation of the notebook starts from. *)
Definition power_on : SimulationState :=
  {| register_values := {[ "count" := 0 ]};
     memory_contents := memvals;
     cycle_index := 0 |}.

(** An input assignment of one cycle. *)
Definition inputs (we_value waddr_value wdata_value raddr_value : Z) : gmap string Z :=
  {[ "we" := we_value; "waddr" := waddr_value; "wdata" := wdata_value;
     "raddr" := raddr_value ]}.

(** The number of cycles, among those of a sequence of [step] calls, in
    which [we] was 1; a call that fails is no cycle. *)
Definition we_cycles (calls : list (gmap string Z)) : Z :=
  Z.of_nat (length (filter (λ a, check_inputs circuit a = true ∧ value a we = 1) calls)).

(** In the eight cycles from [start] on, the read address scans 0..7 and
    both read ports return 1..8. *)
Definition scan_reads (start : nat) : Prop :=
  take 8 (drop start (sim_trace raddr)) = [0; 1; 2; 3; 4; 5; 6; 7]
  ∧ take 8 (drop start (sim_trace rdata1)) = [1; 2; 3; 4; 5; 6; 7; 8]
  ∧ take 8 (drop start (sim_trace rdata2)) = [1; 2; 3; 4; 5; 6; 7; 8].

End Memories.

(** ** The notebook, part 2: two ROMs with the same data *)

Module Roms.

Definition rom_data_func (address : Z) : Z := 31 - 2 * address.

(** [[rom_data_func(a) for a in range(16)]] *)
Definition rom_data_array : list Z := rom_data_func <$> seqZ 0 16.

Definition rom1_block : StorageElement :=
  RomBlock "rom1" 5 4 (RomFunction rom_data_func) 10.
Definition rom2_block : StorageElement :=
  RomBlock "rom2" 5 4 (RomSequence rom_data_array) 10.

Definition rom_add_1 : Wire := Input 4 "rom_in".
Definition rom_add_2 : Wire := Input 4 "rom_in_2".

Definition rom_out_1 : Wire := Output 5 "rom_out_1".
Definition rom_out_2 : Wire := Output 5 "rom_out_2".
Definition rom_out_3 : Wire := Output 5 "rom_out_3".
Definition cmp_out : Wire := Output 1 "cmp_out".

(** The temporaries [temp1 = rom1[rom_add_1]] and [temp2 = rom2[rom_add_1]]
    are wires of the width of the ROM data. *)
Definition temp1 : Wire :=
  {| wire_name := "temp1"; wire_bitwidth := 5; wire_role := RoleInternal |}.
Definition temp2 : Wire :=
  {| wire_name := "temp2"; wire_bitwidth := 5; wire_role := RoleInternal |}.

(** [rom1] has the read port of [temp1]; [rom2] those of [temp2] and
    [rom_out_3]. *)
Definition rom1 : StorageElement := add_read_port rom1_block rom_add_1.
Definition rom2 : StorageElement :=
  add_read_port (add_read_port rom2_block rom_add_1) rom_add_2.

(** The combinational nets, in the order of the notebook:
<<
    temp1 = rom1[rom_add_1]
    temp2 = rom2[rom_add_1]
    rom_out_3 <<= rom2[rom_add_2]
    rom_out_1 <<= temp1
    rom_out_2 <<= temp2
    cmp_out <<= temp1 == temp2
>> *)
Definition nets (mem : StorageElement → Z → Z) (w : gmap string Z) : gmap string Z :=
  let w := connect temp1 (mem rom1 (value w rom_add_1)) w in
  let w := connect temp2 (mem rom2 (value w rom_add_1)) w in
  let w := connect rom_out_3 (mem rom2 (value w rom_add_2)) w in
  let w := connect rom_out_1 (value w temp1) w in
  let w := connect rom_out_2 (value w temp2) w in
  connect cmp_out (equal (value w temp1) (value w temp2)) w.

Definition circuit : Circuit :=
  {| input_wires := [rom_add_1; rom_add_2];
     registers := [];
     storage := [rom1; rom2];
     combinational := nets |}.

(** The stimulus of [rom_in]; that of [rom_in_2] is drawn from the seeded
    random generator, so the simulation takes it as an argument. *)
Definition rom_in : list Z :=
  [1; 11; 4; 2; 7; 8; 2; 4; 5; 13; 15; 3; 4; 4; 4; 8; 12; 13; 2; 1].

Definition simvals (rom_in_2 : list Z) : list (string * list Z) :=
  [("rom_in", rom_in); ("rom_in_2", rom_in_2)].

(** [{k: v[cycle] for k, v in simvals.items()}] *)
Definition provided_inputs (rom_in_2 : list Z) (cycle : nat) : option (gmap string Z) :=
  list_to_map <$> mapM (λ kv, n ← kv.2 !! cycle; Some (kv.1, n)) (simvals rom_in_2).

(** The simulation cell; no memory value map is supplied. *)
Definition simulate (rom_in_2 : list Z) : option (list (gmap string Z) * SimulationState) :=
  match Simulation circuit ∅ with
  | inr sim =>
      inputs ← mapM (provided_inputs rom_in_2) (seq 0 (length rom_in));
      match run circuit sim inputs with
      | inr r => Some r
      | inl _ => None
      end
  | inl _ => None
  end.

(** The state a simulation of the ROM circuit starts from. *)
Definition power_on : SimulationState :=
  {| register_values := ∅;
     memory_contents := {[ id rom1 := contents rom1; id rom2 := contents rom2 ]};
     cycle_index := 0 |}.

(** An input assignment of one cycle. *)
Definition inputs (rom_in_value rom_in_2_value : Z) : gmap string Z :=
  {[ "rom_in" := rom_in_value; "rom_in_2" := rom_in_2_value ]}.

End Roms.

(** ** Vocabulary of the properties *)

(** Two storage elements are fed the same write-port values (address, data
    and enable of every port) in every cycle of a sequence of [step] calls
    that starts in [st]. *)
Fixpoint fed_identically (c : Circuit) (m1 m2 : StorageElement) (st : SimulationState)
    (calls : list (gmap string Z)) : Prop :=
  match calls with
  | [] => True
  | a :: calls =>
      match step c st a with
      | (Ok wires, st') =>
          stage_ports wires (write_ports m1) = stage_ports wires (write_ports m2)
          ∧ fed_identically c m1 m2 st' calls
      | (Err _, st') => fed_identically c m1 m2 st' calls
      end
  end.

(** The dict comprehension of a simulation cell,
    [{k: int(v[cycle]) for k, v in simvals.items()}], as a function of the
    table of stimulus strings.  A Rocq string is a string of bytes, and
    [int] reads the ASCII digits: this is the comprehension of Python on
    tables of ASCII strings, such as the one of the notebook. *)
Definition digit_inputs (vals : list (string * string)) (cycle : nat)
  : option (gmap string Z) :=
  list_to_map <$> mapM (λ kv, ch ← String.get cycle kv.2; n ← int ch; Some (kv.1, n)) vals.

(** The output [validate] is 1 in every cycle of a sequence of [step] calls
    in which a write occurs. *)
Fixpoint validate_holds (st : SimulationState) (calls : list (gmap string Z)) : Prop :=
  match calls with
  | [] => True
  | a :: calls =>
      match step Memories.circuit st a with
      | (Ok wires, st') =>
          (value a Memories.we = 1 → value wires Memories.validate = 1)
          ∧ validate_holds st' calls
      | (Err _, st') => validate_holds st' calls
      end
  end.

(** The contents of a memory of the notebook are in shape: every address is
    one of the eight of a 3-bit address and every value has 32 bits. *)
Definition in_shape (contents : gmap Z Z) : Prop :=
  map_Forall (λ address v, 0 ≤ address < 2 ^ 3 ∧ 0 ≤ v < 2 ^ 32) contents.

(** The writes of a sequence of [step] calls on the two memories, in order:
    the address on [waddr] and the data on [wdata] of every cycle in which
    [we] is 1; a call that fails is no cycle. *)
Definition write_log (calls : list (gmap string Z)) : list (Z * Z) :=
  (λ a, (value a Memories.waddr, value a Memories.wdata))
  <$> filter (λ a, check_inputs Memories.circuit a = true ∧ value a Memories.we = 1) calls.

(** What a memory holds after the writes of a log. *)
Definition written (contents : gmap Z Z) (log : list (Z * Z)) : gmap Z Z :=
  foldl (λ c p, <[p.1 := p.2]> c) contents log.

(** A string is ASCII when every character code is below 128.  On such
    strings the characters, the indices and the length of a Rocq string are
    those of the Python [str]. *)
Definition is_ascii (s : string) : bool :=
  forallb (λ ch, Nat.ltb (nat_of_ascii ch) 128) (String.list_ascii_of_string s).

(** ** Properties of bit-vector values *)

Lemma fits_true width value : fits width value = true ↔ 0 ≤ value < 2 ^ width.
Proof. unfold fits. apply bool_decide_eq_true. Qed.

Lemma truncate_range width value : 0 ≤ width → 0 ≤ truncate width value < 2 ^ width.
Proof. intros Hw. unfold truncate. apply Z.mod_pos_bound. by apply Z.pow_pos_nonneg. Qed.

Lemma truncate_fits width value : 0 ≤ value < 2 ^ width → truncate width value = value.
Proof. intros Hv. unfold truncate. by apply Z.mod_small. Qed.

(** ** Properties of wire values *)

Lemma value_insert_eq (wires : gmap string Z) (w : Wire) (n : string) (v : Z) :
  n = wire_name w → value (<[n := v]> wires) w = v.
Proof. intros ->. unfold value. by rewrite lookup_insert_eq. Qed.

Lemma value_insert_ne (wires : gmap string Z) (w : Wire) (n : string) (v : Z) :
  n ≠ wire_name w → value (<[n := v]> wires) w = value wires w.
Proof. intros Hne. unfold value. by rewrite lookup_insert_ne. Qed.

Lemma value_connect_eq (wires : gmap string Z) (dest w : Wire) (v : Z) :
  wire_name dest = wire_name w →
  value (connect dest v wires) w = truncate (wire_bitwidth dest) v.
Proof. intros Heq. by apply value_insert_eq. Qed.

Lemma value_connect_ne (wires : gmap string Z) (dest w : Wire) (v : Z) :
  wire_name dest ≠ wire_name w → value (connect dest v wires) w = value wires w.
Proof. intros Hne. by apply value_insert_ne. Qed.

Lemma value_singleton (w : Wire) (v : Z) : value {[ wire_name w := v ]} w = v.
Proof. unfold value. by rewrite lookup_singleton_eq. Qed.

(** Follows a wire through the nets of a circuit, down to its driver. *)
Ltac wire_values :=
  repeat first
    [ rewrite value_connect_eq by reflexivity
    | rewrite value_connect_ne by done
    | rewrite value_insert_eq by reflexivity
    | rewrite value_insert_ne by done ].

Lemma select_0 (falsecase truecase : Z) : select 0 falsecase truecase = falsecase.
Proof. done. Qed.

Lemma select_1 (falsecase truecase : Z) : select 1 falsecase truecase = truecase.
Proof. done. Qed.

Lemma equal_same (v : Z) : equal v v = 1.
Proof. unfold equal. by rewrite bool_decide_eq_true_2. Qed.

(** ** Properties of the storage elements *)

Section StorageFacts.

Implicit Types (contents : gmap Z Z) (pending : list PendingWrite).
Implicit Types (wires : gmap string Z) (mc : gmap string (gmap Z Z)).
Implicit Types (m : StorageElement).

Lemma stage_ports_from wires pending ports :
  foldl (stage_port wires) pending ports = pending ++ (staged wires <$> ports).
Proof.
  revert pending. induction ports as [|wp ports IH]; intros pending; simpl.
  - by rewrite app_nil_r.
  - rewrite IH. unfold stage_port, stage_write. by rewrite <- app_assoc.
Qed.

Lemma stage_ports_staged wires ports : stage_ports wires ports = staged wires <$> ports.
Proof. unfold stage_ports. by rewrite stage_ports_from. Qed.

Lemma commit_pending_writes_app contents pending1 pending2 :
  commit_pending_writes contents (pending1 ++ pending2)
  = commit_pending_writes (commit_pending_writes contents pending1) pending2.
Proof. unfold commit_pending_writes. apply foldl_app. Qed.

Lemma commit_none_enabled contents pending :
  existsb pw_enabled pending = false → commit_pending_writes contents pending = contents.
Proof.
  revert contents. induction pending as [|w pending IH]; intros contents; simpl; [done|].
  intros [Hw Hrest]%orb_false_iff. unfold apply_write. rewrite Hw. by apply IH.
Qed.

(** Writes that are disabled or go elsewhere leave an address alone. *)
Lemma commit_lookup_untouched contents pending a :
  Forall (λ w, pw_enabled w = true → pw_address w ≠ a) pending →
  commit_pending_writes contents pending !! a = contents !! a.
Proof.
  revert contents. induction pending as [|w pending IH]; intros contents Hall; simpl; [done|].
  apply Forall_cons in Hall as [Hw Hrest]. rewrite (IH _ Hrest).
  unfold apply_write. destruct (pw_enabled w); [|done].
  apply lookup_insert_ne. by apply Hw.
Qed.

(** The last enabled write to an address decides what it holds. *)
Lemma commit_lookup_last contents before w after :
  pw_enabled w = true →
  Forall (λ w', pw_enabled w' = true → pw_address w' ≠ pw_address w) after →
  commit_pending_writes contents (before ++ w :: after) !! pw_address w = Some (pw_data w).
Proof.
  intros Hen Hafter. rewrite commit_pending_writes_app. simpl.
  change (foldl apply_write ?c after) with (commit_pending_writes c after).
  rewrite (commit_lookup_untouched _ _ _ Hafter).
  unfold apply_write. rewrite Hen. apply lookup_insert_eq.
Qed.

Lemma commit_storage_self wires mc m :
  storage_contents (commit_storage wires mc m) m
  = commit_pending_writes (storage_contents mc m) (stage_ports wires (write_ports m)).
Proof.
  unfold commit_storage.
  destruct (existsb pw_enabled (stage_ports wires (write_ports m))) eqn:Hany.
  - unfold storage_contents at 1. by rewrite lookup_insert_eq.
  - by rewrite commit_none_enabled.
Qed.

Lemma commit_storage_other wires mc m m' :
  id m' ≠ id m →
  storage_contents (commit_storage wires mc m') m = storage_contents mc m.
Proof.
  intros Hne. unfold commit_storage.
  destruct (existsb pw_enabled (stage_ports wires (write_ports m'))); [|done].
  unfold storage_contents at 1 3. by rewrite lookup_insert_ne.
Qed.

Lemma commit_all_notin wires mc m (l : list StorageElement) :
  id m ∉ id <$> l →
  storage_contents (foldl (commit_storage wires) mc l) m = storage_contents mc m.
Proof.
  revert mc. induction l as [|m' l IH]; intros mc Hnotin; simpl; [done|].
  rewrite fmap_cons in Hnotin. apply not_elem_of_cons in Hnotin as [Hne Hl].
  rewrite (IH _ Hl). by apply commit_storage_other.
Qed.

(** The commit of a cycle, seen from one storage element of the graph. *)
Lemma commit_all_in wires mc m (l : list StorageElement) :
  NoDup (id <$> l) → m ∈ l →
  storage_contents (foldl (commit_storage wires) mc l) m
  = commit_pending_writes (storage_contents mc m) (stage_ports wires (write_ports m)).
Proof.
  revert mc. induction l as [|m' l IH]; intros mc Hnodup Hin; [by apply elem_of_nil in Hin|].
  rewrite fmap_cons in Hnodup. apply NoDup_cons in Hnodup as [Hfresh Hnodup].
  simpl. apply elem_of_cons in Hin as [->|Hin].
  - rewrite (commit_all_notin _ _ _ _ Hfresh). apply commit_storage_self.
  - rewrite (IH _ Hnodup Hin). f_equal. apply commit_storage_other.
    intros Heq. apply Hfresh. rewrite Heq. by apply list_elem_of_fmap_2.
Qed.

Lemma accept_NoDup (c : Circuit) : accept c = true → NoDup (id <$> storage c).
Proof. unfold accept. intros [_ H]%andb_true_iff. by apply bool_decide_eq_true in H. Qed.

Lemma accept_storage_ok (c : Circuit) m :
  accept c = true → m ∈ storage c → storage_ok m = true.
Proof.
  unfold accept. intros [H _]%andb_true_iff Hin.
  rewrite forallb_forall in H. apply H. by apply list_elem_of_In.
Qed.

(** What a successful [step] is made of. *)
Lemma step_Ok (c : Circuit) (st st' : SimulationState) (a wires : gmap string Z) :
  step c st a = (Ok wires, st') →
  check_inputs c a = true ∧ wires = evaluate c st a ∧ st' = commit c st wires.
Proof.
  unfold step. destruct (check_inputs c a); [|discriminate].
  intros [= <- <-]. done.
Qed.

Lemma step_contents (c : Circuit) (st st' : SimulationState) (a wires : gmap string Z) m :
  accept c = true → m ∈ storage c → step c st a = (Ok wires, st') →
  storage_contents (memory_contents st') m
  = commit_pending_writes (storage_contents (memory_contents st) m)
      (stage_ports wires (write_ports m)).
Proof.
  intros Hacc Hin (_ & _ & ->)%step_Ok. simpl.
  apply commit_all_in; [by apply accept_NoDup | done].
Qed.

End StorageFacts.

(** ** Properties of the simulation driver *)

Section DriverFacts.

Variable c : Circuit.

Implicit Types (st : SimulationState) (a wires : gmap string Z).
Implicit Types (m : StorageElement) (calls : list (gmap string Z)).

Lemma check_inputs_false a (w : Wire) :
  w ∈ input_wires c → input_ok a w = false → check_inputs c a = false.
Proof.
  intros Hin Hbad. unfold check_inputs.
  apply not_true_is_false. intros Hall. rewrite forallb_forall in Hall.
  apply list_elem_of_In, Hall in Hin. congruence.
Qed.

Lemma check_inputs_value a (w : Wire) :
  check_inputs c a = true → w ∈ input_wires c → 0 ≤ value a w < 2 ^ wire_bitwidth w.
Proof.
  unfold check_inputs. rewrite forallb_forall. intros Hall Hin%list_elem_of_In.
  specialize (Hall w Hin). unfold input_ok in Hall. unfold value.
  destruct (a !! wire_name w) as [v|]; [|done]. simpl. by apply fits_true.
Qed.

Lemma steps_cons st a calls : steps c st (a :: calls) = steps c (step c st a).2 calls.
Proof. done. Qed.

(** C8: a [step] call whose input assignment lacks a required Input wire, or
    gives one a value outside the wire's bitwidth, fails with
    [InputMismatch] and hands back the state it was given: registers, memory
    contents and cycle index are those of the last successful commit, and
    the simulation goes on from them as if the call had not been made. *)
Theorem step_input_mismatch st a (w : Wire) calls :
  w ∈ input_wires c →
  a !! wire_name w = None
  ∨ (∃ v, a !! wire_name w = Some v ∧ ¬ (0 ≤ v < 2 ^ wire_bitwidth w)) →
  step c st a = (Err InputMismatch, st)
  ∧ steps c st (a :: calls) = steps c st calls.
Proof.
  intros Hin Hbad.
  assert (input_ok a w = false) as Hw.
  { unfold input_ok. destruct Hbad as [->|(v & -> & Hv)]; [done|].
    apply not_true_is_false. by rewrite fits_true. }
  assert (step c st a = (Err InputMismatch, st)) as Hstep.
  { unfold step. by rewrite (check_inputs_false _ _ Hin Hw). }
  split; [done|]. by rewrite steps_cons, Hstep.
Qed.

(** C2: in a cycle in which the enable wire of every write port of a memory
    carries 0, the contents of the memory after the commit are those before
    it, whatever the address and data wires carry; the effective enable of a
    port is [value != 0] of its enable wire, and [true] without one. *)
Theorem write_enable_gating st st' a wires m :
  accept c = true → m ∈ storage c →
  step c st a = (Ok wires, st') →
  Forall (λ wp, ∃ en, enable_wire wp = Some en ∧ value wires en = 0) (write_ports m) →
  storage_contents (memory_contents st') m = storage_contents (memory_contents st) m
  ∧ (∀ v, effective_enable (Some v) = true ↔ v ≠ 0)
  ∧ effective_enable None = true.
Proof.
  intros Hacc Hin Hstep Hoff. split; [|split; [|done]].
  - rewrite (step_contents _ _ _ _ _ _ Hacc Hin Hstep).
    apply commit_none_enabled. rewrite stage_ports_staged.
    induction Hoff as [|wp ports (en & Hen & Hval) _ IH]; [done|].
    rewrite fmap_cons. simpl. rewrite IH, orb_false_r.
    rewrite Hen. simpl. rewrite Hval. done.
  - intros v. simpl. rewrite negb_true_iff, bool_decide_eq_false. done.
Qed.

(** C1: when a write port of a memory stages an enabled write to address [A]
    in a cycle, and no port registered after it writes to [A] in that cycle,
    then the read function of that cycle (the one the combinational nets are
    evaluated with) returns for [A] the value held at the start of the cycle,
    and the read function of the next cycle returns the written data. *)
Theorem write_visibility_delay st st' a wires m before wp after (A : Z) :
  accept c = true → m ∈ storage c → in_range m A →
  step c st a = (Ok wires, st') →
  write_ports m = before ++ wp :: after →
  value wires (address_wire wp) = A →
  effective_enable (value wires <$> enable_wire wp) = true →
  Forall (λ wp', effective_enable (value wires <$> enable_wire wp') = true →
                 value wires (address_wire wp') ≠ A) after →
  wires = combinational c (read_port st) (sources c st a)
  ∧ read_port st m A = default 0 (storage_contents (memory_contents st) m !! A)
  ∧ read_port st' m A = value wires (data_wire wp).
Proof.
  intros Hacc Hin HA Hstep Hports Haddr Hen Hafter.
  assert (truncate (addrwidth m) A = A) as Hmask by by apply truncate_fits.
  split; [by apply step_Ok in Hstep as (_ & -> & _)|].
  split; [unfold read_port, read; by rewrite Hmask|].
  unfold read_port, read. rewrite Hmask.
  rewrite (step_contents _ _ _ _ _ _ Hacc Hin Hstep).
  rewrite stage_ports_staged, Hports, fmap_app, fmap_cons.
  rewrite <- Haddr at 1.
  change (value wires (address_wire wp)) with (pw_address (staged wires wp)).
  rewrite commit_lookup_last; [done | done |].
  apply Forall_fmap. eapply Forall_impl; [exact Hafter|].
  intros wp' Hwp'. simpl. rewrite Haddr. exact Hwp'.
Qed.

Lemma step_Err st st' a e :
  step c st a = (Err e, st') → st' = st ∧ e = InputMismatch ∧ check_inputs c a = false.
Proof. unfold step. destruct (check_inputs c a); [discriminate|]. by intros [= <- <-]. Qed.

(** A driving loop that finishes has made the [step] calls one after the
    other, each of them successful. *)
Lemma run_steps st st' calls trace :
  run c st calls = inr (trace, st') →
  st' = steps c st calls
  ∧ Forall2 (λ a wires, ∃ k, (k ≤ length calls)%nat ∧
       (step c (steps c st (take k calls)) a).1 = Ok wires) calls trace.
Proof.
  revert st trace. induction calls as [|a calls IH]; intros st trace.
  - intros [= <- <-]. by split.
  - cbn [run]. rewrite steps_cons.
    destruct (step c st a) as [[wires|e] st1] eqn:Hstep; [|discriminate].
    destruct (run c st1 calls) as [e|[trace1 st2]] eqn:Hrun; [discriminate|].
    intros [= <- <-]. destruct (IH _ _ Hrun) as [-> Hall].
    split; [done|]. constructor.
    + exists 0%nat. split; [simpl; lia|].
      rewrite take_0. change (steps c st []) with st. by rewrite Hstep.
    + eapply Forall2_impl; [exact Hall|]. intros a' wires' (k & Hk & Hok).
      exists (S k). split; [simpl; lia|]. by rewrite firstn_cons, steps_cons, Hstep.
Qed.

Lemma Simulation_inr memory_value_map st0 :
  Simulation c memory_value_map = inr st0 →
  accept c = true
  ∧ memory_contents st0
    = list_to_map ((λ m, (id m, initial_contents memory_value_map m)) <$> storage c)
  ∧ register_values st0 = list_to_map ((λ r, (wire_name r, 0)) <$> registers c)
  ∧ cycle_index st0 = 0%nat.
Proof.
  unfold Simulation. destruct (accept c); simpl; [|discriminate].
  destruct (existsb _ _); [discriminate|]. by intros [= <-].
Qed.

Lemma Simulation_contents memory_value_map st0 m :
  Simulation c memory_value_map = inr st0 → m ∈ storage c →
  storage_contents (memory_contents st0) m = initial_contents memory_value_map m.
Proof.
  intros (Hacc & -> & _)%Simulation_inr Hin. unfold storage_contents.
  erewrite elem_of_list_to_map_1; [done| |].
  - rewrite <- list_fmap_compose. by apply accept_NoDup.
  - by apply (list_elem_of_fmap_2 (λ m, (id m, initial_contents memory_value_map m))).
Qed.

Lemma rom_write_ports m :
  accept c = true → m ∈ storage c → kind m = ROM → write_ports m = [] ∧ rom_total m = true.
Proof.
  intros Hacc Hin Hkind. pose proof (accept_storage_ok _ _ Hacc Hin) as Hok.
  unfold storage_ok in Hok. rewrite Hkind in Hok.
  apply andb_true_iff in Hok as [_ [Hnil Htotal]%andb_true_iff].
  by apply bool_decide_eq_true in Hnil.
Qed.

Lemma rom_step st a m :
  accept c = true → m ∈ storage c → kind m = ROM →
  storage_contents (memory_contents (step c st a).2) m
  = storage_contents (memory_contents st) m.
Proof.
  intros Hacc Hin Hkind. destruct (step c st a) as [[wires|e] st'] eqn:Hstep; simpl.
  - rewrite (step_contents _ _ _ _ _ _ Hacc Hin Hstep).
    by destruct (rom_write_ports _ Hacc Hin Hkind) as [-> _].
  - by apply step_Err in Hstep as [-> _].
Qed.

Lemma rom_steps st calls m :
  accept c = true → m ∈ storage c → kind m = ROM →
  storage_contents (memory_contents (steps c st calls)) m
  = storage_contents (memory_contents st) m.
Proof.
  intros Hacc Hin Hkind. revert st.
  induction calls as [|a calls IH]; intros st; [done|].
  rewrite steps_cons, IH. by apply rom_step.
Qed.

Lemma rom_contents_lookup (addrwidth : Z) romdata (A : Z) :
  0 ≤ A < 2 ^ addrwidth → rom_contents addrwidth romdata !! A = romdata_at romdata A.
Proof.
  intros HA. unfold rom_contents.
  assert (A ∈ seqZ 0 (2 ^ addrwidth)) as Hin by (apply elem_of_seqZ; lia).
  revert Hin. generalize (seqZ 0 (2 ^ addrwidth)) as l.
  induction l as [|a0 l IH]; intros Hin; [by apply elem_of_nil in Hin|].
  simpl.
  destruct (decide (a0 = A)) as [->|Hne].
  - destruct (romdata_at romdata A) as [v|] eqn:Hv; simpl.
    + apply lookup_insert_eq.
    + destruct (decide (A ∈ l)) as [Hl|Hl]; [by apply IH|].
      apply not_elem_of_list_to_map_1. intros Hdom. apply Hl.
      apply list_elem_of_fmap in Hdom as ([a1 v1] & -> & Hmem).
      apply list_elem_of_omap in Hmem as (a2 & Ha2 & Heq).
      destruct (romdata_at romdata a2); simplify_eq/=. done.
  - apply elem_of_cons in Hin as [->|Hin]; [done|].
    destruct (romdata_at romdata a0) as [v|]; simpl; [|by apply IH].
    rewrite lookup_insert_ne by done. by apply IH.
Qed.

Lemma rom_contents_fixed memory_value_map st0 rom calls :
  Simulation c memory_value_map = inr st0 → rom ∈ storage c → kind rom = ROM →
  storage_contents (memory_contents (steps c st0 calls)) rom = contents rom.
Proof.
  intros Hsim Hin Hkind. pose proof (Simulation_inr _ _ Hsim) as (Hacc & _).
  rewrite (rom_steps _ _ _ Hacc Hin Hkind), (Simulation_contents _ _ _ Hsim Hin).
  unfold initial_contents. by rewrite Hkind.
Qed.

(** C3: a ROM of an accepted circuit holds, after any sequence of [step]
    calls, the contents of its construction, and a read of any address in
    range returns the value its defining function or sequence gives there. *)
Theorem rom_immutability memory_value_map st0 rom calls :
  Simulation c memory_value_map = inr st0 → rom ∈ storage c → kind rom = ROM →
  storage_contents (memory_contents (steps c st0 calls)) rom = contents rom
  ∧ ∀ romdata A,
      contents rom = rom_contents (addrwidth rom) romdata → in_range rom A →
      romdata_at romdata A = Some (read_port (steps c st0 calls) rom A).
Proof.
  intros Hsim Hin Hkind.
  pose proof (Simulation_inr _ _ Hsim) as (Hacc & _).
  pose proof (rom_contents_fixed _ _ _ calls Hsim Hin Hkind) as Hfix.
  split; [done|]. intros romdata A Hdata HA.
  unfold read_port, read. rewrite Hfix, (truncate_fits _ _ HA).
  destruct (rom_write_ports _ Hacc Hin Hkind) as [_ Htotal].
  unfold rom_total in Htotal. rewrite forallb_forall in Htotal.
  specialize (Htotal A). rewrite <- list_elem_of_In, elem_of_seqZ in Htotal.
  rewrite <- (rom_contents_lookup (addrwidth rom)) by done. rewrite <- Hdata.
  destruct (contents rom !! A); [done|]. unfold in_range in HA.
  exfalso. assert (false = true) by (apply Htotal; lia). done.
Qed.

Lemma fed_identically_contents m1 m2 calls st n :
  accept c = true → m1 ∈ storage c → m2 ∈ storage c →
  storage_contents (memory_contents st) m1 = storage_contents (memory_contents st) m2 →
  fed_identically c m1 m2 st calls →
  storage_contents (memory_contents (steps c st (take n calls))) m1
  = storage_contents (memory_contents (steps c st (take n calls))) m2.
Proof.
  intros Hacc Hin1 Hin2. revert st n.
  induction calls as [|a calls IH]; intros st n Hsame Hfed; [by rewrite take_nil|].
  destruct n as [|n]; [done|]. rewrite firstn_cons, steps_cons.
  simpl in Hfed. destruct (step c st a) as [[wires|e] st'] eqn:Hstep; simpl.
  - destruct Hfed as [Hw Hfed]. apply IH; [|done].
    rewrite (step_contents _ _ _ _ _ _ Hacc Hin1 Hstep).
    rewrite (step_contents _ _ _ _ _ _ Hacc Hin2 Hstep). by rewrite Hsame, Hw.
  - apply step_Err in Hstep as [-> _]. by apply IH.
Qed.

(** C4: two storage elements of a circuit with the same bitwidth, the same
    addrwidth and the same initial contents, whose write ports carry the same
    address, data and enable values in every cycle, return the same value
    when read at the same address, in every cycle. *)
Theorem equivalence_under_identical_stimulus memory_value_map st0 m1 m2 calls :
  Simulation c memory_value_map = inr st0 →
  m1 ∈ storage c → m2 ∈ storage c →
  bitwidth m1 = bitwidth m2 → addrwidth m1 = addrwidth m2 →
  initial_contents memory_value_map m1 = initial_contents memory_value_map m2 →
  fed_identically c m1 m2 st0 calls →
  ∀ (n : nat) (A : Z),
    read_port (steps c st0 (take n calls)) m1 A
    = read_port (steps c st0 (take n calls)) m2 A.
Proof.
  intros Hsim Hin1 Hin2 _ Haw Hinit Hfed n A.
  pose proof (Simulation_inr _ _ Hsim) as (Hacc & _).
  unfold read_port. rewrite Haw. f_equal.
  apply fed_identically_contents; try done.
  by rewrite !(Simulation_contents _ _ _ Hsim).
Qed.

End DriverFacts.

(** ** The two memories of the notebook *)

Section MemoriesFacts.

Import Memories.

Implicit Types (st : SimulationState) (a wires : gmap string Z).
Implicit Types (calls : list (gmap string Z)).

Lemma power_on_Simulation : Simulation circuit memvals = inr power_on.
Proof. vm_compute. reflexivity. Qed.

Lemma circuit_accepted : accept circuit = true.
Proof. vm_compute. reflexivity. Qed.

Lemma mem1_in_circuit : mem1 ∈ storage circuit.
Proof. apply list_elem_of_here. Qed.

Lemma mem2_in_circuit : mem2 ∈ storage circuit.
Proof. apply list_elem_of_further, list_elem_of_here. Qed.

Lemma inputs_of_circuit :
  waddr ∈ input_wires circuit ∧ wdata ∈ input_wires circuit
  ∧ we ∈ input_wires circuit ∧ raddr ∈ input_wires circuit.
Proof. repeat split; repeat constructor. Qed.

Lemma stimulus_provided :
  mapM provided_inputs cycles = Some stimulus ∧ length stimulus = 26%nat.
Proof.
  assert (length <$> mapM provided_inputs cycles = Some 26%nat) as Hlen
    by (vm_compute; reflexivity).
  unfold stimulus. destruct (mapM provided_inputs cycles) as [l|]; [|discriminate].
  simpl in *. split; [done|congruence].
Qed.

Lemma simulate_stimulus : snd <$> simulate = Some (steps circuit power_on stimulus).
Proof. vm_compute. reflexivity. Qed.

(** *** The concrete scenario *)

(** C5, as stated: the read addresses do not scan 0..7 from cycle 19 on,
    whether the cycles are counted from 0 or from 1; at cycle 19 the read
    address is 3 and the read ports return 4. *)
Lemma scan_does_not_start_at_19 :
  ¬ scan_reads 19 ∧ ¬ scan_reads 18
  ∧ sim_trace raddr !! 19%nat = Some 3 ∧ sim_trace rdata1 !! 19%nat = Some 4.
Proof.
  split; [|split].
  - intros [Hscan _]. vm_compute in Hscan. discriminate Hscan.
  - intros [Hscan _]. vm_compute in Hscan. discriminate Hscan.
  - split; vm_compute; reflexivity.
Qed.

(** C5, amended: with bitwidth 32, addrwidth 3, all eight addresses
    initialised to 9 and the stimulus of the notebook, the read addresses
    scan 0..7 from cycle 16 on (cycles counted from 0), after the eight
    enabled writes of cycles 2..9, and both read ports then return
    1, 2, ..., 8; so does any read of the addresses 0..7 in order once the
    eight writes are committed. *)
Theorem concrete_scenario :
  (bitwidth mem1, addrwidth mem1, bitwidth mem2, addrwidth mem2) = (32, 3, 32, 3)
  ∧ (λ addr, mem1_init !! addr) <$> seqZ 0 8 = replicate 8 (Some 9)
  ∧ (λ addr, mem2_init !! addr) <$> seqZ 0 8 = replicate 8 (Some 9)
  ∧ sim_trace we = [0; 0; 1; 1; 1; 1; 1; 1; 1; 1] ++ replicate 16 0
  ∧ sim_trace waddr = [0; 0; 0; 1; 2; 3; 4; 5; 6; 7] ++ replicate 16 0
  ∧ sim_trace wdata = [0; 0; 1; 2; 3; 4; 5; 6; 7; 8; 9; 9; 9] ++ replicate 13 0
  ∧ sim_trace raddr = replicate 16 0 ++ [0; 1; 2; 3; 4; 5; 6; 7; 7; 7]
  ∧ scan_reads 16
  ∧ (λ st, read_port st mem1 <$> seqZ 0 8) <$> state_after 10
    = Some [1; 2; 3; 4; 5; 6; 7; 8]
  ∧ (λ st, read_port st mem2 <$> seqZ 0 8) <$> state_after 10
    = Some [1; 2; 3; 4; 5; 6; 7; 8].
Proof. repeat split; vm_compute; reflexivity. Qed.

(** The round trip in the simulation of the notebook: the enabled writes
    are eight, with the addresses 0..7 on [waddr] and on the register [count]
    and the data 1..8; after them, and at the end of the simulation, both
    memories hold {0:1, 1:2, ..., 7:8}; and [validate] is 1 in every cycle in
    which a write occurs. *)
Lemma notebook_round_trip :
  write_cycles waddr = [0; 1; 2; 3; 4; 5; 6; 7]
  ∧ write_cycles count = [0; 1; 2; 3; 4; 5; 6; 7]
  ∧ write_cycles wdata = [1; 2; 3; 4; 5; 6; 7; 8]
  ∧ memory_contents <$> state_after 10
    = Some {[ id mem1 := list_to_map [(0, 1); (1, 2); (2, 3); (3, 4); (4, 5); (5, 6); (6, 7); (7, 8)];
              id mem2 := list_to_map [(0, 1); (1, 2); (2, 3); (3, 4); (4, 5); (5, 6); (6, 7); (7, 8)] ]}
  ∧ (memory_contents ∘ snd) <$> simulate = memory_contents <$> state_after 10
  ∧ write_cycles validate = [1; 1; 1; 1; 1; 1; 1; 1].
Proof. repeat split; vm_compute; reflexivity. Qed.

(** Under the stimulus of the notebook the two memories are fed the same
    write-port values in every cycle, and their read ports agree. *)
Lemma stimulus_fed_identically : fed_identically circuit mem1 mem2 power_on stimulus.
Proof. vm_compute. repeat split; reflexivity. Qed.

Lemma rdata_traces_agree : sim_trace rdata1 = sim_trace rdata2.
Proof. vm_compute. reflexivity. Qed.

(** *** One cycle of the circuit, for any state and any inputs *)

Lemma memories_reads st st' a wires :
  step circuit st a = (Ok wires, st') →
  value wires rdata1 = truncate 32 (read_port st mem1 (value a raddr))
  ∧ value wires rdata2 = truncate 32 (read_port st mem2 (value a raddr)).
Proof.
  intros (_ & -> & _)%step_Ok.
  unfold evaluate, sources. simpl. unfold nets. by wire_values.
Qed.

Lemma memories_writes st st' a wires :
  step circuit st a = (Ok wires, st') →
  stage_ports wires (write_ports mem1)
  = [{| pw_address := value a waddr; pw_data := value a wdata;
        pw_enabled := effective_enable (Some (value a we)) |}]
  ∧ stage_ports wires (write_ports mem2)
    = [{| pw_address := value (register_values st) count; pw_data := value a wdata;
          pw_enabled := effective_enable (Some (value a we)) |}].
Proof.
  intros (_ & -> & _)%step_Ok. rewrite !stage_ports_staged.
  unfold evaluate, sources. simpl. unfold staged, nets. simpl. by wire_values.
Qed.

(** The write of [mem1[waddr] <<= WE(wdata, we)] is not seen by
    [rdata1 <<= mem1[raddr]] in its own cycle and is seen in the next. *)
Lemma memories_write_then_read st st' st'' a a' wires wires' :
  step circuit st a = (Ok wires, st') →
  step circuit st' a' = (Ok wires', st'') →
  value a we = 1 → value a' raddr = value a waddr →
  value wires rdata1 = truncate 32 (read_port st mem1 (value a raddr))
  ∧ value wires' rdata1 = value a wdata.
Proof.
  intros Hstep Hstep' Hwe Hraddr.
  split; [by apply (memories_reads _ _ _ _ Hstep)|].
  destruct (memories_reads _ _ _ _ Hstep') as [-> _].
  apply step_Ok in Hstep as Hparts. destruct Hparts as (Hin & _ & _).
  assert (0 ≤ value a waddr < 2 ^ 3) as Haddr.
  { apply (check_inputs_value circuit a waddr Hin), inputs_of_circuit. }
  assert (0 ≤ value a wdata < 2 ^ 32) as Hdata.
  { apply (check_inputs_value circuit a wdata Hin), inputs_of_circuit. }
  unfold read_port, read. rewrite Hraddr.
  change (addrwidth mem1) with 3. rewrite (truncate_fits 3 (value a waddr) Haddr).
  rewrite (step_contents circuit _ _ _ _ mem1 circuit_accepted mem1_in_circuit Hstep).
  destruct (memories_writes _ _ _ _ Hstep) as [-> _]. rewrite Hwe. simpl.
  unfold apply_write. simpl. rewrite lookup_insert_eq. simpl.
  by apply truncate_fits.
Qed.

(** With [we] at 0 neither memory changes, whatever [waddr], [wdata] and
    [count] are. *)
Lemma memories_gated st st' a wires :
  step circuit st a = (Ok wires, st') → value a we = 0 →
  storage_contents (memory_contents st') mem1 = storage_contents (memory_contents st) mem1
  ∧ storage_contents (memory_contents st') mem2 = storage_contents (memory_contents st) mem2.
Proof.
  intros Hstep Hwe. destruct (memories_writes _ _ _ _ Hstep) as [H1 H2].
  rewrite (step_contents circuit _ _ _ _ mem1 circuit_accepted mem1_in_circuit Hstep).
  rewrite (step_contents circuit _ _ _ _ mem2 circuit_accepted mem2_in_circuit Hstep).
  by rewrite H1, H2, Hwe.
Qed.

(** *** The register [count] *)

Lemma memories_step st st' a wires (cnt : Z) :
  register_values st = {[ "count" := cnt ]} →
  step circuit st a = (Ok wires, st') →
  check_inputs circuit a = true
  ∧ (value a we = 0 ∨ value a we = 1)
  ∧ value wires (next count) = (select (value a we) cnt (cnt + 1)) `mod` 8
  ∧ register_values st' = {[ "count" := value wires (next count) ]}.
Proof.
  intros Hregs (Hin & -> & ->)%step_Ok. split; [done|].
  assert (0 ≤ value a we < 2) as Hwe.
  { apply (check_inputs_value circuit a we Hin), inputs_of_circuit. }
  split; [lia|]. split; [|done].
  unfold evaluate, sources. simpl. unfold nets. rewrite Hregs.
  wire_values. by rewrite (value_singleton count).
Qed.

Lemma we_cycles_cons a calls :
  we_cycles (a :: calls)
  = (if decide (check_inputs circuit a = true ∧ value a we = 1) then 1 else 0)
    + we_cycles calls.
Proof. unfold we_cycles. rewrite filter_cons. case_decide; simpl; lia. Qed.

Lemma count_after calls st (k : Z) :
  register_values st = {[ "count" := k `mod` 8 ]} →
  register_values (steps circuit st calls) = {[ "count" := (k + we_cycles calls) `mod` 8 ]}.
Proof.
  revert st k. induction calls as [|a calls IH]; intros st k Hregs.
  - simpl. by rewrite Z.add_0_r.
  - rewrite steps_cons, we_cycles_cons.
    destruct (step circuit st a) as [[wires|e] st'] eqn:Hstep; simpl.
    + destruct (memories_step _ _ _ _ _ Hregs Hstep) as (Hin & Hwe & Hnext & Hregs').
      rewrite Hnext in Hregs'. destruct Hwe as [Hwe|Hwe]; rewrite Hwe in Hregs'.
      * rewrite decide_False by lia. rewrite select_0, Z.mod_mod in Hregs' by done.
        by apply IH.
      * rewrite decide_True by done. rewrite select_1, Z.add_mod_idemp_l in Hregs' by done.
        rewrite Z.add_assoc. by apply IH.
    + apply step_Err in Hstep as (-> & _ & Hin).
      rewrite decide_False by (intros [Hok _]; congruence). by apply IH.
Qed.

(** C9: from any initial memory contents and after any sequence of [step]
    calls, the register [count] holds the number of cycles in which [we] was
    1, modulo 8; in a further cycle [count.next] lies in [[0, 8)] and is what
    [count] holds in the cycle after, so that an enabled increment at 7
    gives 0. *)
Theorem count_wraps_modulo_8 (memory_value_map : gmap string (gmap Z Z)) st0 calls :
  Simulation circuit memory_value_map = inr st0 →
  value (register_values (steps circuit st0 calls)) count = we_cycles calls `mod` 8
  ∧ ∀ a wires st',
      step circuit (steps circuit st0 calls) a = (Ok wires, st') →
      0 ≤ value wires (next count) < 8
      ∧ value (register_values st') count = value wires (next count)
      ∧ value wires (next count) = (we_cycles calls + value a we) `mod` 8
      ∧ (value (register_values (steps circuit st0 calls)) count = 7 → value a we = 1 →
         value (register_values st') count = 0).
Proof.
  intros (_ & _ & Hregs0 & _)%Simulation_inr.
  pose proof (count_after calls st0 0 Hregs0) as Hregs. rewrite Z.add_0_l in Hregs.
  rewrite Hregs, (value_singleton count). split; [done|].
  intros a wires st' Hstep.
  destruct (memories_step _ _ _ _ _ Hregs Hstep) as (_ & Hwe & Hnext & Hregs').
  rewrite Hregs', (value_singleton count).
  assert (value wires (next count) = (we_cycles calls + value a we) `mod` 8) as Hcount.
  { rewrite Hnext. destruct Hwe as [->| ->].
    - by rewrite select_0, Z.mod_mod, Z.add_0_r.
    - by rewrite select_1, Z.add_mod_idemp_l. }
  split; [rewrite Hcount; by apply Z.mod_pos_bound|].
  split; [done|]. split; [done|].
  intros H7 H1. rewrite Hnext, H7, H1. done.
Qed.

(** *** The general properties at the notebook's circuit *)

Lemma step_input_mismatch_witness :
  we ∈ input_wires circuit
  ∧ (({[ "waddr" := 3; "wdata" := 7; "raddr" := 3 ]} : gmap string Z) !! wire_name we = None
     ∨ ∃ v, ({[ "waddr" := 3; "wdata" := 7; "raddr" := 3 ]} : gmap string Z) !! wire_name we
            = Some v ∧ ¬ (0 ≤ v < 2 ^ wire_bitwidth we))
  ∧ step circuit power_on {[ "waddr" := 3; "wdata" := 7; "raddr" := 3 ]}
    = (Err InputMismatch, power_on)
  ∧ steps circuit power_on [ {[ "waddr" := 3; "wdata" := 7; "raddr" := 3 ]}; inputs 1 3 7 3 ]
    = steps circuit power_on [ inputs 1 3 7 3 ].
Proof.
  assert (we ∈ input_wires circuit) as Hin by (vm_compute; repeat constructor).
  assert (({[ "waddr" := 3; "wdata" := 7; "raddr" := 3 ]} : gmap string Z) !! wire_name we = None
     ∨ ∃ v, ({[ "waddr" := 3; "wdata" := 7; "raddr" := 3 ]} : gmap string Z) !! wire_name we
            = Some v ∧ ¬ (0 ≤ v < 2 ^ wire_bitwidth we)) as Hbad by (left; reflexivity).
  split; [exact Hin|]. split; [exact Hbad|].
  exact (step_input_mismatch circuit power_on _ we [ inputs 1 3 7 3 ] Hin Hbad).
Defined.

Lemma write_enable_gating_witness :
  accept circuit = true
  ∧ mem1 ∈ storage circuit
  ∧ step circuit power_on (inputs 0 3 7 3)
    = (Ok (evaluate circuit power_on (inputs 0 3 7 3)),
       commit circuit power_on (evaluate circuit power_on (inputs 0 3 7 3)))
  ∧ Forall (λ wp, ∃ en, enable_wire wp = Some en
                        ∧ value (evaluate circuit power_on (inputs 0 3 7 3)) en = 0)
      (write_ports mem1)
  ∧ storage_contents
      (memory_contents (commit circuit power_on (evaluate circuit power_on (inputs 0 3 7 3))))
      mem1
    = storage_contents (memory_contents power_on) mem1
  ∧ (∀ v, effective_enable (Some v) = true ↔ v ≠ 0)
  ∧ effective_enable None = true.
Proof.
  assert (accept circuit = true) as Hacc by (vm_compute; reflexivity).
  assert (mem1 ∈ storage circuit) as Hin by (vm_compute; repeat constructor).
  assert (step circuit power_on (inputs 0 3 7 3)
    = (Ok (evaluate circuit power_on (inputs 0 3 7 3)),
       commit circuit power_on (evaluate circuit power_on (inputs 0 3 7 3)))) as Hstep
    by (vm_compute; reflexivity).
  assert (Forall (λ wp, ∃ en, enable_wire wp = Some en
                        ∧ value (evaluate circuit power_on (inputs 0 3 7 3)) en = 0)
      (write_ports mem1)) as Hoff.
  { repeat constructor. exists we. split; vm_compute; reflexivity. }
  split; [exact Hacc|]. split; [exact Hin|]. split; [exact Hstep|]. split; [exact Hoff|].
  exact (write_enable_gating circuit _ _ _ _ mem1 Hacc Hin Hstep Hoff).
Defined.

Lemma write_visibility_delay_witness :
  accept circuit = true
  ∧ mem1 ∈ storage circuit
  ∧ in_range mem1 3
  ∧ step circuit power_on (inputs 1 3 7 3)
    = (Ok (evaluate circuit power_on (inputs 1 3 7 3)),
       commit circuit power_on (evaluate circuit power_on (inputs 1 3 7 3)))
  ∧ write_ports mem1
    = [] ++ {| address_wire := waddr; data_wire := wdata; enable_wire := Some we |} :: []
  ∧ value (evaluate circuit power_on (inputs 1 3 7 3)) waddr = 3
  ∧ effective_enable (Some (value (evaluate circuit power_on (inputs 1 3 7 3)) we)) = true
  ∧ read_port power_on mem1 3 = 9
  ∧ value (evaluate circuit power_on (inputs 1 3 7 3)) rdata1 = 9
  ∧ read_port (commit circuit power_on (evaluate circuit power_on (inputs 1 3 7 3))) mem1 3
    = value (evaluate circuit power_on (inputs 1 3 7 3)) wdata
  ∧ value (evaluate circuit power_on (inputs 1 3 7 3)) wdata = 7.
Proof.
  assert (accept circuit = true) as Hacc by (vm_compute; reflexivity).
  assert (mem1 ∈ storage circuit) as Hin by (vm_compute; repeat constructor).
  assert (in_range mem1 3) as HA by (unfold in_range; simpl; lia).
  assert (step circuit power_on (inputs 1 3 7 3)
    = (Ok (evaluate circuit power_on (inputs 1 3 7 3)),
       commit circuit power_on (evaluate circuit power_on (inputs 1 3 7 3)))) as Hstep
    by (vm_compute; reflexivity).
  assert (write_ports mem1
    = [] ++ {| address_wire := waddr; data_wire := wdata; enable_wire := Some we |} :: [])
    as Hports by reflexivity.
  assert (value (evaluate circuit power_on (inputs 1 3 7 3)) waddr = 3) as Haddr
    by (vm_compute; reflexivity).
  assert (effective_enable (Some (value (evaluate circuit power_on (inputs 1 3 7 3)) we)) = true)
    as Hen by (vm_compute; reflexivity).
  destruct (write_visibility_delay circuit _ _ _ _ mem1 _ _ _ 3
              Hacc Hin HA Hstep Hports Haddr Hen (Forall_nil_2 _)) as (_ & Hnow & Hnext).
  repeat split; try done; try (vm_compute; reflexivity).
Defined.

Lemma equivalence_under_identical_stimulus_witness :
  Simulation circuit memvals = inr power_on
  ∧ mem1 ∈ storage circuit ∧ mem2 ∈ storage circuit
  ∧ bitwidth mem1 = bitwidth mem2 ∧ addrwidth mem1 = addrwidth mem2
  ∧ initial_contents memvals mem1 = initial_contents memvals mem2
  ∧ fed_identically circuit mem1 mem2 power_on stimulus
  ∧ ∀ (n : nat) (A : Z),
      read_port (steps circuit power_on (take n stimulus)) mem1 A
      = read_port (steps circuit power_on (take n stimulus)) mem2 A.
Proof.
  assert (mem1 ∈ storage circuit) as Hin1 by (vm_compute; repeat constructor).
  assert (mem2 ∈ storage circuit) as Hin2 by (vm_compute; repeat constructor).
  assert (bitwidth mem1 = bitwidth mem2) as Hbw by reflexivity.
  assert (addrwidth mem1 = addrwidth mem2) as Haw by reflexivity.
  assert (initial_contents memvals mem1 = initial_contents memvals mem2) as Hinit
    by (vm_compute; reflexivity).
  repeat (split; [assumption || exact power_on_Simulation
                  || exact stimulus_fed_identically|]).
  exact (equivalence_under_identical_stimulus circuit memvals power_on mem1 mem2 _
           power_on_Simulation Hin1 Hin2 Hbw Haw Hinit stimulus_fed_identically).
Defined.

Lemma count_wraps_modulo_8_witness :
  Simulation circuit memvals = inr power_on
  ∧ we_cycles (take 9 stimulus) = 7
  ∧ value (register_values (steps circuit power_on (take 9 stimulus))) count = 7
  ∧ step circuit (steps circuit power_on (take 9 stimulus)) (inputs 1 7 8 0)
    = (Ok (evaluate circuit (steps circuit power_on (take 9 stimulus)) (inputs 1 7 8 0)),
       steps circuit power_on (take 10 stimulus))
  ∧ value (evaluate circuit (steps circuit power_on (take 9 stimulus)) (inputs 1 7 8 0))
      (next count) = 0
  ∧ we_cycles (take 10 stimulus) = 8
  ∧ value (register_values (steps circuit power_on (take 10 stimulus))) count = 0.
Proof.
  assert (Simulation circuit memvals = inr power_on) as Hsim by (vm_compute; reflexivity).
  assert (step circuit (steps circuit power_on (take 9 stimulus)) (inputs 1 7 8 0)
    = (Ok (evaluate circuit (steps circuit power_on (take 9 stimulus)) (inputs 1 7 8 0)),
       steps circuit power_on (take 10 stimulus))) as Hstep by (vm_compute; reflexivity).
  assert (we_cycles (take 9 stimulus) = 7) as Hwe by (vm_compute; reflexivity).
  destruct (count_wraps_modulo_8 memvals power_on (take 9 stimulus) Hsim) as [H9 Hcycle].
  destruct (Hcycle _ _ _ Hstep) as (_ & Hcommit & Hnext & Hwrap).
  rewrite Hwe in H9, Hnext.
  split; [exact Hsim|]. split; [exact Hwe|]. split; [exact H9|]. split; [exact Hstep|].
  split; [exact Hnext|]. split; [vm_compute; reflexivity|].
  apply Hwrap; [exact H9 | vm_compute; reflexivity].
Defined.

End MemoriesFacts.

(** ** The two ROMs of the notebook *)

Section RomsFacts.

Import Roms.

Implicit Types (st : SimulationState) (a wires : gmap string Z).
Implicit Types (calls : list (gmap string Z)).

Lemma power_on_Simulation_roms : Simulation circuit ∅ = inr power_on.
Proof. vm_compute. reflexivity. Qed.

Lemma roms_same_contents : contents rom1 = contents rom2.
Proof. vm_compute. reflexivity. Qed.

Lemma rom1_in_circuit : rom1 ∈ storage circuit.
Proof. apply list_elem_of_here. Qed.

Lemma rom2_in_circuit : rom2 ∈ storage circuit.
Proof. apply list_elem_of_further, list_elem_of_here. Qed.

Lemma roms_read_alike (memory_value_map : gmap string (gmap Z Z)) st0 calls (A : Z) :
  Simulation circuit memory_value_map = inr st0 →
  read_port (steps circuit st0 calls) rom1 A = read_port (steps circuit st0 calls) rom2 A.
Proof.
  intros Hsim. unfold read_port.
  rewrite (rom_contents_fixed circuit _ _ rom1 calls Hsim rom1_in_circuit eq_refl).
  rewrite (rom_contents_fixed circuit _ _ rom2 calls Hsim rom2_in_circuit eq_refl).
  by rewrite roms_same_contents.
Qed.

(** C6: the ROM of addrwidth 4 defined by [rom_data_func], that is
    [31 - 2 * address], returns 21 at address 5, and 31, 29, 27, ..., 1 when
    the addresses 0..15 are read in order, from the read function of the
    simulation as well as on the output [rom_out_1] of the circuit. *)
Theorem rom_scenario :
  Simulation circuit ∅ = inr power_on
  ∧ addrwidth rom1 = 4
  ∧ rom_data_func 5 = 21
  ∧ read_port power_on rom1 5 = 21
  ∧ read_port power_on rom1 <$> seqZ 0 16
    = [31; 29; 27; 25; 23; 21; 19; 17; 15; 13; 11; 9; 7; 5; 3; 1]
  ∧ (λ address,
       match step circuit power_on (inputs address address) with
       | (Ok wires, _) => Some (value wires rom_out_1)
       | (Err _, _) => None
       end) <$> seqZ 0 16
    = Some <$> [31; 29; 27; 25; 23; 21; 19; 17; 15; 13; 11; 9; 7; 5; 3; 1].
Proof. repeat split; vm_compute; reflexivity. Qed.

Lemma roms_step st st' a wires :
  (∀ A, read_port st rom1 A = read_port st rom2 A) →
  step circuit st a = (Ok wires, st') →
  value wires rom_out_1 = value wires rom_out_2 ∧ value wires cmp_out = 1.
Proof.
  intros Hsame (_ & -> & _)%step_Ok.
  unfold evaluate, sources. simpl. unfold nets.
  wire_values. rewrite Hsame, equal_same. done.
Qed.

(** C10: the ROM defined by [rom_data_func] and the ROM of the same shape
    defined by the list [rom_data_array] hold the same contents; in every
    cycle of every simulation they return equal values at equal addresses,
    the outputs [rom_out_1] and [rom_out_2] agree and [cmp_out] is 1. *)
Theorem roms_equivalent (memory_value_map : gmap string (gmap Z Z)) st0 calls :
  Simulation circuit memory_value_map = inr st0 →
  rom_data_array = rom_data_func <$> seqZ 0 16
  ∧ rom_contents 4 (RomFunction rom_data_func) = rom_contents 4 (RomSequence rom_data_array)
  ∧ (∀ A, read_port (steps circuit st0 calls) rom1 A
          = read_port (steps circuit st0 calls) rom2 A)
  ∧ ∀ a wires st',
      step circuit (steps circuit st0 calls) a = (Ok wires, st') →
      value wires rom_out_1 = value wires rom_out_2 ∧ value wires cmp_out = 1.
Proof.
  intros Hsim. split; [done|]. split; [exact roms_same_contents|].
  assert (∀ A, read_port (steps circuit st0 calls) rom1 A
               = read_port (steps circuit st0 calls) rom2 A) as Hsame
    by (intros A; by eapply roms_read_alike).
  split; [done|]. intros a wires st' Hstep. by apply (roms_step _ _ _ _ Hsame Hstep).
Qed.

(** The simulation cell of the notebook, whatever the random generator
    draws for [rom_in_2]: [cmp_out] is 1 in every cycle of the trace. *)
Lemma simulate_cmp_out (rom_in_2 : list Z) (trace : list (gmap string Z)) st :
  simulate rom_in_2 = Some (trace, st) →
  Forall (λ wires, value wires cmp_out = 1) trace.
Proof.
  unfold simulate. rewrite power_on_Simulation_roms.
  destruct (mapM _ _) as [calls|]; simpl; [|discriminate].
  destruct (run circuit power_on calls) as [e|[trace' st']] eqn:Hrun; [discriminate|].
  intros [= <- <-]. apply run_steps in Hrun as [_ Hall].
  eapply Forall2_Forall_r; [exact Hall|]. apply Forall_forall.
  intros a _ wires (k & _ & Hstep).
  destruct (step circuit (steps circuit power_on (take k calls)) a) as [res st1] eqn:Hs.
  simpl in Hstep. subst res.
  assert (∀ A, read_port (steps circuit power_on (take k calls)) rom1 A
               = read_port (steps circuit power_on (take k calls)) rom2 A) as Hsame
    by (intros A; apply (roms_read_alike ∅), power_on_Simulation_roms).
  by apply (roms_step _ _ _ _ Hsame Hs).
Qed.

(** The cell runs to its end, for instance when every draw is 3. *)
Lemma simulate_runs :
  (λ r, (length r.1, cycle_index r.2)) <$> simulate (replicate 20 3) = Some (20%nat, 20%nat).
Proof. vm_compute. reflexivity. Qed.

(** *** The general properties at the notebook's circuit *)

Lemma rom_immutability_witness :
  Simulation circuit ∅ = inr power_on
  ∧ rom1 ∈ storage circuit ∧ kind rom1 = ROM
  ∧ contents rom1 = rom_contents (addrwidth rom1) (RomFunction rom_data_func)
  ∧ in_range rom1 5
  ∧ storage_contents (memory_contents (steps circuit power_on [inputs 1 2; inputs 5 7])) rom1
    = contents rom1
  ∧ Some (rom_data_func 5)
    = Some (read_port (steps circuit power_on [inputs 1 2; inputs 5 7]) rom1 5).
Proof.
  assert (rom1 ∈ storage circuit) as Hin by (vm_compute; repeat constructor).
  assert (kind rom1 = ROM) as Hkind by reflexivity.
  assert (contents rom1 = rom_contents (addrwidth rom1) (RomFunction rom_data_func)) as Hdata
    by reflexivity.
  assert (in_range rom1 5) as HA by (unfold in_range; simpl; lia).
  destruct (rom_immutability circuit ∅ power_on rom1 [inputs 1 2; inputs 5 7]
              power_on_Simulation_roms Hin Hkind) as [Hfix Hread].
  repeat (split; [assumption || exact power_on_Simulation_roms|]).
  exact (Hread (RomFunction rom_data_func) 5 Hdata HA).
Defined.

Lemma roms_equivalent_witness :
  Simulation circuit ∅ = inr power_on
  ∧ step circuit (steps circuit power_on [inputs 1 2]) (inputs 5 7)
    = (Ok (evaluate circuit (steps circuit power_on [inputs 1 2]) (inputs 5 7)),
       commit circuit (steps circuit power_on [inputs 1 2])
         (evaluate circuit (steps circuit power_on [inputs 1 2]) (inputs 5 7)))
  ∧ value (evaluate circuit (steps circuit power_on [inputs 1 2]) (inputs 5 7)) rom_out_1
    = value (evaluate circuit (steps circuit power_on [inputs 1 2]) (inputs 5 7)) rom_out_2
  ∧ value (evaluate circuit (steps circuit power_on [inputs 1 2]) (inputs 5 7)) cmp_out = 1.
Proof.
  assert (step circuit (steps circuit power_on [inputs 1 2]) (inputs 5 7)
    = (Ok (evaluate circuit (steps circuit power_on [inputs 1 2]) (inputs 5 7)),
       commit circuit (steps circuit power_on [inputs 1 2])
         (evaluate circuit (steps circuit power_on [inputs 1 2]) (inputs 5 7)))) as Hstep
    by (vm_compute; reflexivity).
  destruct (roms_equivalent ∅ power_on [inputs 1 2] power_on_Simulation_roms)
    as (_ & _ & _ & Hcycle).
  destruct (Hcycle _ _ _ Hstep) as [Hout Hcmp].
  split; [exact power_on_Simulation_roms|]. split; [exact Hstep|]. split; [exact Hout|exact Hcmp].
Defined.

End RomsFacts.

(** ** The driving loop *)

Section LoopFacts.

Variable c : Circuit.

Implicit Types (st : SimulationState) (a wires : gmap string Z).
Implicit Types (calls : list (gmap string Z)).

Lemma step_valid st a :
  check_inputs c a = true → step c st a = (Ok (evaluate c st a), commit c st (evaluate c st a)).
Proof. intros Hin. unfold step. by rewrite Hin. Qed.

Lemma steps_app st calls1 calls2 :
  steps c st (calls1 ++ calls2) = steps c (steps c st calls1) calls2.
Proof. unfold steps. apply foldl_app. Qed.

Lemma steps_valid_cycle_index st calls :
  forallb (check_inputs c) calls = true →
  cycle_index (steps c st calls) = (cycle_index st + length calls)%nat.
Proof.
  revert st. induction calls as [|a calls IH]; intros st; simpl; [lia|].
  intros [Ha Hrest]%andb_true_iff.
  change (cycle_index (steps c (step c st a).2 calls)
          = (cycle_index st + S (length calls))%nat).
  rewrite (IH _ Hrest), (step_valid _ _ Ha). simpl. lia.
Qed.

Lemma run_valid st calls :
  forallb (check_inputs c) calls = true →
  ∃ trace, run c st calls = inr (trace, steps c st calls) ∧ length trace = length calls.
Proof.
  revert st. induction calls as [|a calls IH]; intros st; simpl.
  - intros _. by exists [].
  - intros [Ha Hrest]%andb_true_iff. rewrite (step_valid _ _ Ha).
    destruct (IH (commit c st (evaluate c st a)) Hrest) as (trace & Hrun & Hlen).
    rewrite Hrun. exists (evaluate c st a :: trace).
    split; [done | simpl; by rewrite Hlen].
Qed.

Lemma run_invalid st calls :
  forallb (check_inputs c) calls = false → run c st calls = inl InputMismatch.
Proof.
  revert st. induction calls as [|a calls IH]; intros st Hall; [discriminate|].
  simpl in Hall. simpl. destruct (check_inputs c a) eqn:Ha.
  - rewrite (step_valid _ _ Ha). simpl in Hall. by rewrite (IH _ Hall).
  - unfold step. by rewrite Ha.
Qed.

End LoopFacts.

(** ** The stimulus of the memories *)

Section StimulusFacts.

Import Memories.

Implicit Types (st : SimulationState) (a wires : gmap string Z).

Lemma int_digit (ch : ascii) (n : Z) : int ch = Some n → 0 ≤ n ≤ 9.
Proof. unfold int. case_bool_decide; [|done]. intros [= <-]. lia. Qed.

Lemma get_Some_lt (s : string) (n : nat) (ch : ascii) :
  String.get n s = Some ch → (n < String.length s)%nat.
Proof.
  revert n. induction s as [|ch0 s IH]; intros n; simpl; [done|].
  destruct n as [|n]; [lia|]. intros Hget%IH. lia.
Qed.

Lemma provided_inputs_digit_inputs (cycle : nat) :
  provided_inputs cycle = digit_inputs simvals cycle.
Proof. done. Qed.

Lemma digit_inputs_entry (vals : list (string * string)) (cycle : nat) a (k : string) (v : Z) :
  digit_inputs vals cycle = Some a → a !! k = Some v →
  ∃ s ch, (k, s) ∈ vals ∧ String.get cycle s = Some ch ∧ int ch = Some v.
Proof.
  unfold digit_inputs. intros (l & Hl & ->)%fmap_Some Hk.
  apply elem_of_list_to_map_2 in Hk. apply mapM_Some in Hl.
  apply list_elem_of_lookup in Hk as [i Hi].
  destruct (Forall2_lookup_r _ _ _ _ _ Hl Hi) as ([k0 s] & Hvals & Hf).
  simpl in Hf. destruct (String.get cycle s) as [ch|] eqn:Hget; [|done]. simpl in Hf.
  destruct (int ch) as [n|] eqn:Hint; [|done]. simpl in Hf. injection Hf as -> ->.
  exists s, ch. split; [|done]. apply list_elem_of_lookup. by exists i.
Qed.

(** X1: for any table of ASCII stimulus strings, every value the
    digit-string comprehension hands to [step] is a single decimal digit,
    between 0 and 9, read from a string that is long enough for the cycle; a
    value above 9 cannot be provided this way. *)
Theorem digit_inputs_single_digit (vals : list (string * string)) (cycle : nat) a
    (k : string) (v : Z) :
  forallb (λ kv, is_ascii kv.2) vals = true →
  digit_inputs vals cycle = Some a → a !! k = Some v →
  0 ≤ v ≤ 9 ∧ ∃ s, (k, s) ∈ vals ∧ (cycle < String.length s)%nat.
Proof.
  intros _ Ha Hk. destruct (digit_inputs_entry _ _ _ _ _ Ha Hk) as (s & ch & Hin & Hget & Hint).
  split; [by apply (int_digit ch)|]. exists s. split; [done|]. by apply (get_Some_lt _ _ ch).
Qed.

Lemma digit_inputs_single_digit_witness :
  forallb (λ kv, is_ascii kv.2) simvals = true
  ∧ digit_inputs simvals 12 = Some (inputs 0 0 9 0)
  ∧ inputs 0 0 9 0 !! "wdata" = Some 9
  ∧ 0 ≤ 9 ≤ 9 ∧ ∃ s, ("wdata", s) ∈ simvals ∧ (12 < String.length s)%nat.
Proof.
  assert (forallb (λ kv, is_ascii kv.2) simvals = true) as Hascii
    by (vm_compute; reflexivity).
  assert (digit_inputs simvals 12 = Some (inputs 0 0 9 0)) as Ha by (vm_compute; reflexivity).
  assert (inputs 0 0 9 0 !! "wdata" = Some 9) as Hk by (vm_compute; reflexivity).
  split; [exact Hascii|]. split; [exact Ha|]. split; [exact Hk|].
  exact (digit_inputs_single_digit simvals 12 _ "wdata" 9 Hascii Ha Hk).
Defined.

Lemma cycles_seq : cycles = seq 0 26.
Proof. reflexivity. Qed.

Lemma stimulus_valid : forallb (check_inputs circuit) stimulus = true.
Proof. vm_compute. reflexivity. Qed.

(** X2: the loop bound [len(simvals['we'])] is safe for all four stimulus
    strings: the comprehension yields an assignment exactly for the cycles
    0..25 (beyond them it raises), and every assignment it yields has the
    four inputs within their bitwidths, so no [step] of the cell fails. *)
Theorem stimulus_cycles (cycle : nat) :
  (is_Some (provided_inputs cycle) ↔ (cycle < 26)%nat)
  ∧ ∀ a, provided_inputs cycle = Some a →
         check_inputs circuit a = true ∧ stimulus !! cycle = Some a.
Proof.
  destruct stimulus_provided as [Hmap Hlen].
  assert (is_Some (provided_inputs cycle) → (cycle < 26)%nat) as Hbound.
  { intros [a Ha]. unfold provided_inputs in Ha.
    apply fmap_Some in Ha as (l & Hl & _). apply mapM_Some in Hl.
    unfold simvals in Hl. apply Forall2_cons_inv_l in Hl as (y & l' & Hy & _ & _).
    apply bind_Some in Hy as (ch & Hget & _). by apply get_Some_lt in Hget. }
  assert (∀ a, provided_inputs cycle = Some a → stimulus !! cycle = Some a) as Hstim.
  { intros a Ha. apply mapM_Some in Hmap.
    assert (cycles !! cycle = Some cycle) as Hc.
    { rewrite cycles_seq. apply lookup_seq. split; [done|]. apply Hbound. by exists a. }
    destruct (Forall2_lookup_l _ _ _ _ _ Hmap Hc) as (y & Hy & Hprov). congruence. }
  split; [split; [exact Hbound|]|].
  - intros Hlt. assert (is_Some (mapM provided_inputs cycles)) as Hsome by by exists stimulus.
    rewrite mapM_is_Some, Forall_forall in Hsome. apply Hsome.
    rewrite cycles_seq. apply elem_of_seq. lia.
  - intros a Ha. split; [|by apply Hstim].
    pose proof stimulus_valid as Hall. rewrite forallb_forall in Hall.
    apply Hall, list_elem_of_In, list_elem_of_lookup. exists cycle. by apply Hstim.
Qed.

End StimulusFacts.

(** ** The two memories, cycle by cycle *)

Section MemoriesCycles.

Import Memories.

Implicit Types (st : SimulationState) (a wires : gmap string Z).
Implicit Types (calls : list (gmap string Z)).

Lemma memories_transition st st' a wires :
  step circuit st a = (Ok wires, st') →
  (value a we = 0
   ∧ storage_contents (memory_contents st') mem1 = storage_contents (memory_contents st) mem1
   ∧ storage_contents (memory_contents st') mem2 = storage_contents (memory_contents st) mem2)
  ∨ (value a we = 1
     ∧ storage_contents (memory_contents st') mem1
       = <[value a waddr := value a wdata]> (storage_contents (memory_contents st) mem1)
     ∧ storage_contents (memory_contents st') mem2
       = <[value (register_values st) count := value a wdata]>
           (storage_contents (memory_contents st) mem2)).
Proof.
  intros Hstep. pose proof (step_Ok _ _ _ _ _ Hstep) as (Hin & _ & _).
  assert (0 ≤ value a we < 2) as Hwe.
  { apply (check_inputs_value circuit a we Hin), inputs_of_circuit. }
  destruct (decide (value a we = 0)) as [H0|H0].
  - left. split; [done|]. by apply (memories_gated _ _ _ _ Hstep).
  - right. assert (value a we = 1) as H1 by lia. split; [done|].
    destruct (memories_writes _ _ _ _ Hstep) as [Hw1 Hw2].
    rewrite (step_contents circuit _ _ _ _ mem1 circuit_accepted mem1_in_circuit Hstep).
    rewrite (step_contents circuit _ _ _ _ mem2 circuit_accepted mem2_in_circuit Hstep).
    by rewrite Hw1, Hw2, H1.
Qed.

(** X4: what a cycle commits to the two memories, as the next cycle reads
    it.  An address of [mem1] reads the value on [wdata] when [we] is 1 and
    the address is the one on [waddr], and what it read before otherwise;
    the same holds for [mem2] with the address in [count]. *)
Theorem memories_commit st st' a wires (A : Z) :
  step circuit st a = (Ok wires, st') → 0 ≤ A < 8 →
  read_port st' mem1 A
  = (if bool_decide (value a we = 1 ∧ A = value a waddr)
     then value a wdata else read_port st mem1 A)
  ∧ read_port st' mem2 A
    = (if bool_decide (value a we = 1 ∧ A = value (register_values st) count)
       then value a wdata else read_port st mem2 A).
Proof.
  intros Hstep HA. unfold read_port, read.
  change (addrwidth mem1) with 3. change (addrwidth mem2) with 3.
  rewrite (truncate_fits 3 A HA).
  destruct (memories_transition _ _ _ _ Hstep) as [(H0 & -> & ->)|(H1 & -> & ->)].
  - rewrite !bool_decide_eq_false_2 by (intros [? _]; congruence). done.
  - split; case_bool_decide as Hcase.
    + destruct Hcase as [_ ->]. by rewrite lookup_insert_eq.
    + rewrite lookup_insert_ne; [done|]. intros <-. by apply Hcase.
    + destruct Hcase as [_ ->]. by rewrite lookup_insert_eq.
    + rewrite lookup_insert_ne; [done|]. intros <-. by apply Hcase.
Qed.

(** The register [count] of a reachable state. *)
Lemma count_reachable (memory_value_map : gmap string (gmap Z Z)) st0 calls :
  Simulation circuit memory_value_map = inr st0 →
  ∃ k, register_values (steps circuit st0 calls) = {[ "count" := k `mod` 8 ]}.
Proof.
  intros (_ & _ & Hregs0 & _)%Simulation_inr.
  exists (0 + we_cycles calls). by apply count_after.
Qed.

Lemma in_shape_insert (contents : gmap Z Z) (address v : Z) :
  in_shape contents → 0 ≤ address < 2 ^ 3 → 0 ≤ v < 2 ^ 32 →
  in_shape (<[address := v]> contents).
Proof. intros Hc Ha Hv. by apply map_Forall_insert_2. Qed.

Lemma in_shape_read (contents : gmap Z Z) (address : Z) :
  in_shape contents → truncate 32 (read 3 contents address) = read 3 contents address.
Proof.
  intros Hc. apply truncate_fits. unfold read.
  destruct (contents !! truncate 3 address) as [v|] eqn:Hv; simpl; [|lia].
  by destruct (Hc _ _ Hv).
Qed.

Lemma in_shape_step st a (k : Z) :
  register_values st = {[ "count" := k `mod` 8 ]} →
  in_shape (storage_contents (memory_contents st) mem1) →
  in_shape (storage_contents (memory_contents st) mem2) →
  in_shape (storage_contents (memory_contents (step circuit st a).2) mem1)
  ∧ in_shape (storage_contents (memory_contents (step circuit st a).2) mem2).
Proof.
  intros Hregs H1 H2. destruct (step circuit st a) as [[wires|e] st'] eqn:Hstep; simpl.
  - pose proof (step_Ok _ _ _ _ _ Hstep) as (Hin & _ & _).
    destruct (memories_transition _ _ _ _ Hstep) as [(_ & -> & ->)|(_ & -> & ->)]; [done|].
    assert (0 ≤ value a waddr < 2 ^ 3) as Haddr
      by apply (check_inputs_value circuit a waddr Hin), inputs_of_circuit.
    assert (0 ≤ value a wdata < 2 ^ 32) as Hdata
      by apply (check_inputs_value circuit a wdata Hin), inputs_of_circuit.
    split; apply in_shape_insert; try done.
    rewrite Hregs, (value_singleton count). by apply Z.mod_pos_bound.
  - by apply step_Err in Hstep as (-> & _).
Qed.

Lemma count_step st a (k : Z) :
  register_values st = {[ "count" := k `mod` 8 ]} →
  ∃ k', register_values (step circuit st a).2 = {[ "count" := k' `mod` 8 ]}.
Proof.
  intros Hregs. destruct (step circuit st a) as [[wires|e] st'] eqn:Hstep; simpl.
  - destruct (memories_step _ _ _ _ _ Hregs Hstep) as (_ & _ & Hnext & ->).
    rewrite Hnext. by eexists.
  - apply step_Err in Hstep as (-> & _). by exists k.
Qed.

Lemma in_shape_steps calls st (k : Z) :
  register_values st = {[ "count" := k `mod` 8 ]} →
  in_shape (storage_contents (memory_contents st) mem1) →
  in_shape (storage_contents (memory_contents st) mem2) →
  in_shape (storage_contents (memory_contents (steps circuit st calls)) mem1)
  ∧ in_shape (storage_contents (memory_contents (steps circuit st calls)) mem2).
Proof.
  revert st k. induction calls as [|a calls IH]; intros st k Hregs H1 H2; [done|].
  rewrite steps_cons. destruct (count_step st a k Hregs) as [k' Hregs'].
  destruct (in_shape_step st a k Hregs H1 H2) as [H1' H2']. by apply (IH _ k').
Qed.

(** X5: when the initial contents given to the two memories are in shape
    (addresses below 8, values of 32 bits), they stay in shape under any
    sequence of [step] calls: no write lands outside the eight addresses and
    no stored value needs more than 32 bits; so the outputs [rdata1] and
    [rdata2] of a cycle are exactly what the memories hold at [raddr] when
    the cycle starts. *)
Theorem memories_stay_in_shape (memory_value_map : gmap string (gmap Z Z)) st0 calls :
  Simulation circuit memory_value_map = inr st0 →
  in_shape (initial_contents memory_value_map mem1) →
  in_shape (initial_contents memory_value_map mem2) →
  in_shape (storage_contents (memory_contents (steps circuit st0 calls)) mem1)
  ∧ in_shape (storage_contents (memory_contents (steps circuit st0 calls)) mem2)
  ∧ ∀ a wires st',
      step circuit (steps circuit st0 calls) a = (Ok wires, st') →
      value wires rdata1 = read_port (steps circuit st0 calls) mem1 (value a raddr)
      ∧ value wires rdata2 = read_port (steps circuit st0 calls) mem2 (value a raddr).
Proof.
  intros Hsim H1 H2.
  pose proof (Simulation_inr _ _ _ Hsim) as (_ & _ & Hregs0 & _).
  rewrite <- (Simulation_contents _ _ _ mem1 Hsim mem1_in_circuit) in H1.
  rewrite <- (Simulation_contents _ _ _ mem2 Hsim mem2_in_circuit) in H2.
  destruct (in_shape_steps calls st0 0 Hregs0 H1 H2) as [H1' H2'].
  split; [done|]. split; [done|]. intros a wires st' Hstep.
  destruct (memories_reads _ _ _ _ Hstep) as [-> ->].
  unfold read_port. change (addrwidth mem1) with 3. change (addrwidth mem2) with 3.
  by rewrite !in_shape_read.
Qed.

Lemma mem_init_lookup (addr : Z) :
  mem1_init !! addr = (if bool_decide (0 ≤ addr < 8) then Some 9 else None)
  ∧ mem2_init !! addr = (if bool_decide (0 ≤ addr < 8) then Some 9 else None).
Proof.
  assert (mem1_init !! addr = (if bool_decide (0 ≤ addr < 8) then Some 9 else None)) as H;
    [|by split].
  case_bool_decide as Hrange.
  - assert (addr = 0 ∨ addr = 1 ∨ addr = 2 ∨ addr = 3
            ∨ addr = 4 ∨ addr = 5 ∨ addr = 6 ∨ addr = 7) as Hcases by lia.
    destruct_or!; subst addr; reflexivity.
  - unfold mem1_init. apply not_elem_of_list_to_map_1.
    rewrite <- list_fmap_compose, list_fmap_id, elem_of_seqZ. lia.
Qed.

Lemma mem_init_in_shape : in_shape mem1_init ∧ in_shape mem2_init.
Proof.
  assert (in_shape mem1_init) as H; [|by split].
  intros addr v Hv. destruct (mem_init_lookup addr) as [Hlookup _].
  rewrite Hlookup in Hv. case_bool_decide; [|done]. injection Hv as <-. lia.
Qed.

Lemma memories_stay_in_shape_witness :
  Simulation circuit memvals = inr power_on
  ∧ in_shape (initial_contents memvals mem1)
  ∧ in_shape (initial_contents memvals mem2)
  ∧ in_shape (storage_contents (memory_contents (steps circuit power_on stimulus)) mem1)
  ∧ in_shape (storage_contents (memory_contents (steps circuit power_on stimulus)) mem2).
Proof.
  assert (Simulation circuit memvals = inr power_on) as Hsim by (vm_compute; reflexivity).
  assert (in_shape (initial_contents memvals mem1)) as H1 by exact (proj1 mem_init_in_shape).
  assert (in_shape (initial_contents memvals mem2)) as H2 by exact (proj2 mem_init_in_shape).
  destruct (memories_stay_in_shape memvals power_on stimulus Hsim H1 H2) as (H1' & H2' & _).
  repeat (split; [assumption|]). assumption.
Defined.

End MemoriesCycles.

Section MemoriesRuns.

Import Memories.

Implicit Types (st : SimulationState) (a wires : gmap string Z).
Implicit Types (calls ws : list (gmap string Z)).

Lemma power_on_contents :
  storage_contents (memory_contents power_on) mem1 = mem1_init
  ∧ storage_contents (memory_contents power_on) mem2 = mem2_init.
Proof. split; vm_compute; reflexivity. Qed.

Lemma power_on_read (A : Z) :
  read_port power_on mem1 A = 9 ∧ read_port power_on mem2 A = 9.
Proof.
  destruct power_on_contents as [H1 H2]. unfold read_port, read. rewrite H1, H2.
  change (addrwidth mem1) with 3. change (addrwidth mem2) with 3.
  assert (0 ≤ truncate 3 A < 8) as Hmask by by apply (truncate_range 3).
  destruct (mem_init_lookup (truncate 3 A)) as [-> ->].
  by rewrite bool_decide_eq_true_2.
Qed.

Lemma defined_step st a (A : Z) :
  is_Some (storage_contents (memory_contents st) mem1 !! A)
  ∧ is_Some (storage_contents (memory_contents st) mem2 !! A) →
  is_Some (storage_contents (memory_contents (step circuit st a).2) mem1 !! A)
  ∧ is_Some (storage_contents (memory_contents (step circuit st a).2) mem2 !! A).
Proof.
  intros [H1 H2]. destruct (step circuit st a) as [[wires|e] st'] eqn:Hstep; simpl.
  - destruct (memories_transition _ _ _ _ Hstep) as [(_ & -> & ->)|(_ & -> & ->)]; [done|].
    rewrite !lookup_insert_is_Some'. auto.
  - by apply step_Err in Hstep as (-> & _).
Qed.

Lemma defined_steps calls st (A : Z) :
  is_Some (storage_contents (memory_contents st) mem1 !! A)
  ∧ is_Some (storage_contents (memory_contents st) mem2 !! A) →
  is_Some (storage_contents (memory_contents (steps circuit st calls)) mem1 !! A)
  ∧ is_Some (storage_contents (memory_contents (steps circuit st calls)) mem2 !! A).
Proof.
  revert st. induction calls as [|a calls IH]; intros st Hdef; [done|].
  rewrite steps_cons. by apply IH, defined_step.
Qed.

(** X13: the initial-value dictionaries give 9 to each of the addresses 0..7
    and to no other, so at power-on every read returns 9, whatever the
    address wire carries; and since a write only ever stores, every one of
    the eight addresses of both memories holds a value after any sequence of
    [step] calls: no read of the simulation meets an address without one. *)
Theorem memories_always_defined :
  (∀ addr, mem1_init !! addr = (if bool_decide (0 ≤ addr < 8) then Some 9 else None)
           ∧ mem2_init !! addr = (if bool_decide (0 ≤ addr < 8) then Some 9 else None))
  ∧ (∀ A, read_port power_on mem1 A = 9 ∧ read_port power_on mem2 A = 9)
  ∧ ∀ calls A, 0 ≤ A < 8 →
      is_Some (storage_contents (memory_contents (steps circuit power_on calls)) mem1 !! A)
      ∧ is_Some (storage_contents (memory_contents (steps circuit power_on calls)) mem2 !! A).
Proof.
  split; [exact mem_init_lookup|]. split; [exact power_on_read|].
  intros calls A HA. apply defined_steps.
  destruct power_on_contents as [-> ->]. destruct (mem_init_lookup A) as [-> ->].
  rewrite bool_decide_eq_true_2 by done. by split.
Qed.

Lemma memories_validate st st' a wires :
  step circuit st a = (Ok wires, st') →
  value wires validate = equal (value a waddr) (value (register_values st) count).
Proof.
  intros (_ & -> & _)%step_Ok.
  unfold evaluate, sources. simpl. unfold nets. wire_values.
  unfold equal. by case_bool_decide.
Qed.

Lemma validated_contents calls st (n : nat) :
  storage_contents (memory_contents st) mem1 = storage_contents (memory_contents st) mem2 →
  validate_holds st calls →
  storage_contents (memory_contents (steps circuit st (take n calls))) mem1
  = storage_contents (memory_contents (steps circuit st (take n calls))) mem2.
Proof.
  revert st n. induction calls as [|a calls IH]; intros st n Hsame Hval;
    [by rewrite take_nil|].
  destruct n as [|n]; [done|]. rewrite firstn_cons, steps_cons.
  simpl in Hval. destruct (step circuit st a) as [[wires|e] st'] eqn:Hstep; simpl.
  - destruct Hval as [Hv Hrest]. apply IH; [|done].
    destruct (memories_transition _ _ _ _ Hstep) as [(_ & -> & ->)|(H1 & -> & ->)]; [done|].
    specialize (Hv H1). rewrite (memories_validate _ _ _ _ Hstep) in Hv.
    unfold equal in Hv. case_bool_decide as Haddr; [|done]. by rewrite Haddr, Hsame.
  - apply step_Err in Hstep as (-> & _). by apply IH.
Qed.

(** X3: the check the notebook builds with [validate] is sound.  When the
    two memories start from the same contents and [validate] is 1 in every
    cycle in which a write occurs, the memories hold the same contents after
    every cycle, and [rdata1] equals [rdata2] in every cycle. *)
Theorem validated_memories_agree (memory_value_map : gmap string (gmap Z Z)) st0 calls
    (n : nat) :
  Simulation circuit memory_value_map = inr st0 →
  initial_contents memory_value_map mem1 = initial_contents memory_value_map mem2 →
  validate_holds st0 calls →
  storage_contents (memory_contents (steps circuit st0 (take n calls))) mem1
  = storage_contents (memory_contents (steps circuit st0 (take n calls))) mem2
  ∧ ∀ a wires st',
      step circuit (steps circuit st0 (take n calls)) a = (Ok wires, st') →
      value wires rdata1 = value wires rdata2.
Proof.
  intros Hsim Hinit Hval.
  assert (storage_contents (memory_contents (steps circuit st0 (take n calls))) mem1
          = storage_contents (memory_contents (steps circuit st0 (take n calls))) mem2)
    as Hsame.
  { apply validated_contents; [|done].
    by rewrite (Simulation_contents _ _ _ mem1 Hsim mem1_in_circuit),
               (Simulation_contents _ _ _ mem2 Hsim mem2_in_circuit). }
  split; [done|]. intros a wires st' Hstep.
  destruct (memories_reads _ _ _ _ Hstep) as [-> ->].
  unfold read_port. by rewrite Hsame.
Qed.

Lemma stimulus_validated : validate_holds power_on stimulus.
Proof. vm_compute. repeat split; reflexivity. Qed.

Lemma validated_memories_agree_witness :
  Simulation circuit memvals = inr power_on
  ∧ initial_contents memvals mem1 = initial_contents memvals mem2
  ∧ validate_holds power_on stimulus
  ∧ storage_contents (memory_contents (steps circuit power_on (take 10 stimulus))) mem1
    = storage_contents (memory_contents (steps circuit power_on (take 10 stimulus))) mem2.
Proof.
  assert (Simulation circuit memvals = inr power_on) as Hsim by (vm_compute; reflexivity).
  assert (initial_contents memvals mem1 = initial_contents memvals mem2) as Hinit
    by (vm_compute; reflexivity).
  split; [exact Hsim|]. split; [exact Hinit|]. split; [exact stimulus_validated|].
  exact (proj1 (validated_memories_agree memvals power_on stimulus 10
                  Hsim Hinit stimulus_validated)).
Defined.

End MemoriesRuns.

Section MemoriesSweep.

Import Memories.

Implicit Types (st : SimulationState) (a wires : gmap string Z).
Implicit Types (calls ws : list (gmap string Z)).

Lemma memories_commit_witness :
  step circuit power_on (inputs 1 3 7 3)
  = (Ok (evaluate circuit power_on (inputs 1 3 7 3)),
     commit circuit power_on (evaluate circuit power_on (inputs 1 3 7 3)))
  ∧ 0 ≤ 3 < 8
  ∧ read_port (commit circuit power_on (evaluate circuit power_on (inputs 1 3 7 3))) mem1 3
    = 7
  ∧ read_port (commit circuit power_on (evaluate circuit power_on (inputs 1 3 7 3))) mem2 3
    = 9.
Proof.
  assert (step circuit power_on (inputs 1 3 7 3)
    = (Ok (evaluate circuit power_on (inputs 1 3 7 3)),
       commit circuit power_on (evaluate circuit power_on (inputs 1 3 7 3)))) as Hstep
    by (vm_compute; reflexivity).
  assert (0 ≤ 3 < 8) as HA by lia.
  split; [exact Hstep|]. split; [exact HA|].
  destruct (memories_commit _ _ _ _ 3 Hstep HA) as [-> ->].
  split; vm_compute; reflexivity.
Defined.

(** A write cycle: a valid assignment with [we] at 1. *)
Lemma write_cycle_step st a (cnt : Z) :
  register_values st = {[ "count" := cnt ]} →
  check_inputs circuit a = true → value a we = 1 →
  register_values (step circuit st a).2 = {[ "count" := (cnt + 1) `mod` 8 ]}
  ∧ storage_contents (memory_contents (step circuit st a).2) mem2
    = <[cnt := value a wdata]> (storage_contents (memory_contents st) mem2).
Proof.
  intros Hregs Hin Hwe. pose proof (step_valid circuit st a Hin) as Hstep.
  rewrite Hstep. cbn [snd].
  destruct (memories_step _ _ _ _ _ Hregs Hstep) as (_ & _ & Hnext & Hregs').
  rewrite Hwe, select_1 in Hnext. split; [by rewrite Hregs', Hnext|].
  destruct (memories_transition _ _ _ _ Hstep) as [(H0 & _)|(_ & _ & H2)]; [congruence|].
  by rewrite H2, Hregs, (value_singleton count).
Qed.

Lemma sweep_addresses (cnt : Z) (i n : nat) :
  (i < n)%nat → (n < 8)%nat → (cnt + Z.of_nat i) `mod` 8 ≠ (cnt + Z.of_nat n) `mod` 8.
Proof. intros Hi Hn Heq. Z.div_mod_to_equations. lia. Qed.

Lemma sweep ws st (cnt : Z) :
  register_values st = {[ "count" := cnt ]} → 0 ≤ cnt < 8 → (length ws ≤ 8)%nat →
  Forall (λ a, check_inputs circuit a = true ∧ value a we = 1) ws →
  register_values (steps circuit st ws) = {[ "count" := (cnt + Z.of_nat (length ws)) `mod` 8 ]}
  ∧ ∀ (i : nat) a, ws !! i = Some a →
      storage_contents (memory_contents (steps circuit st ws)) mem2 !! ((cnt + Z.of_nat i) `mod` 8)
      = Some (value a wdata).
Proof.
  intros Hregs Hcnt. induction ws as [|a ws IH] using rev_ind; intros Hlen Hall.
  - simpl. rewrite Z.add_0_r, Z.mod_small by done. by split.
  - rewrite length_app in Hlen. simpl in Hlen.
    apply Forall_app in Hall as [Hall [[Hin Hwe] _]%Forall_cons].
    destruct IH as [Hregs1 Hmem1]; [lia|done|].
    rewrite steps_app. change (steps circuit ?s [a]) with (step circuit s a).2.
    destruct (write_cycle_step _ _ _ Hregs1 Hin Hwe) as [-> ->].
    split.
    + f_equal. rewrite Z.add_mod_idemp_l by done. f_equal. rewrite length_app. simpl. lia.
    + intros i a' Hi. destruct (decide (i < length ws)%nat) as [Hlt|Hge].
      * rewrite lookup_app_l in Hi by done.
        rewrite lookup_insert_ne by (apply not_eq_sym, sweep_addresses; lia).
        by apply Hmem1.
      * pose proof (lookup_lt_Some _ _ _ Hi) as Hbound.
        rewrite length_app in Hbound. simpl in Hbound.
        assert (i = length ws) as -> by lia.
        rewrite list_lookup_middle in Hi by done. injection Hi as <-.
        apply lookup_insert_eq.
Qed.

(** X6: eight write cycles in a row, whatever [waddr] carries, take the
    register [count] once around: it is back at its value, the data of the
    i-th of the eight cycles is read from [mem2] at the address [count + i]
    modulo 8, and so every address of [mem2] holds the data of one of the
    eight cycles. *)
Theorem count_sweep (memory_value_map : gmap string (gmap Z Z)) st0 calls ws :
  Simulation circuit memory_value_map = inr st0 →
  length ws = 8%nat →
  Forall (λ a, check_inputs circuit a = true ∧ value a we = 1) ws →
  value (register_values (steps circuit st0 (calls ++ ws))) count
  = value (register_values (steps circuit st0 calls)) count
  ∧ (∀ (i : nat) a, ws !! i = Some a →
       read_port (steps circuit st0 (calls ++ ws)) mem2
         ((value (register_values (steps circuit st0 calls)) count + Z.of_nat i) `mod` 8)
       = value a wdata)
  ∧ ∀ A, 0 ≤ A < 8 →
      ∃ a, a ∈ ws ∧ read_port (steps circuit st0 (calls ++ ws)) mem2 A = value a wdata.
Proof.
  intros Hsim Hlen Hall.
  destruct (count_reachable _ _ calls Hsim) as [k Hregs].
  assert (0 ≤ k `mod` 8 < 8) as Hcnt by by apply Z.mod_pos_bound.
  destruct (sweep ws _ _ Hregs Hcnt) as [Hregs' Hmem]; [lia|done|].
  rewrite steps_app, Hregs, Hregs', !(value_singleton count).
  assert (∀ (i : nat) a, ws !! i = Some a →
            read_port (steps circuit (steps circuit st0 calls) ws) mem2
              ((k `mod` 8 + Z.of_nat i) `mod` 8) = value a wdata) as Hread.
  { intros i a Hi. unfold read_port, read. change (addrwidth mem2) with 3.
    unfold truncate. change (2 ^ 3) with 8. by rewrite Z.mod_mod, (Hmem i a Hi). }
  split; [|split; [exact Hread|]].
  - rewrite Hlen. change (Z.of_nat 8) with 8.
    rewrite <- Z.add_mod_idemp_r, Z.mod_same, Z.add_0_r, Z.mod_mod; done.
  - intros A HA.
    destruct (lookup_lt_is_Some_2 ws (Z.to_nat ((A - k `mod` 8) `mod` 8))) as [a Ha].
    { rewrite Hlen. Z.div_mod_to_equations. lia. }
    exists a. split; [by eapply list_elem_of_lookup_2|].
    rewrite <- (Hread _ a Ha). f_equal. Z.div_mod_to_equations. lia.
Qed.

Lemma write_cycles_dec ws :
  forallb (λ a, check_inputs circuit a && bool_decide (value a we = 1)) ws = true →
  Forall (λ a, check_inputs circuit a = true ∧ value a we = 1) ws.
Proof.
  rewrite forallb_forall, Forall_forall. intros Hall a Ha%list_elem_of_In.
  apply Hall, andb_true_iff in Ha as [Hin Hwe]. by apply bool_decide_eq_true in Hwe.
Qed.

Lemma count_sweep_witness :
  Simulation circuit memvals = inr power_on
  ∧ length (take 8 (drop 2 stimulus)) = 8%nat
  ∧ Forall (λ a, check_inputs circuit a = true ∧ value a we = 1) (take 8 (drop 2 stimulus))
  ∧ value (register_values
             (steps circuit power_on (take 2 stimulus ++ take 8 (drop 2 stimulus)))) count
    = value (register_values (steps circuit power_on (take 2 stimulus))) count.
Proof.
  assert (Simulation circuit memvals = inr power_on) as Hsim by (vm_compute; reflexivity).
  assert (length (take 8 (drop 2 stimulus)) = 8%nat) as Hlen by (vm_compute; reflexivity).
  assert (Forall (λ a, check_inputs circuit a = true ∧ value a we = 1)
            (take 8 (drop 2 stimulus))) as Hall
    by (apply write_cycles_dec; vm_compute; reflexivity).
  split; [exact Hsim|]. split; [exact Hlen|]. split; [exact Hall|].
  exact (proj1 (count_sweep memvals power_on (take 2 stimulus) _ Hsim Hlen Hall)).
Defined.

End MemoriesSweep.

(** ** The ROM data and the ROM circuit *)

Section RomsData.

Import Roms.

Implicit Types (st : SimulationState) (a wires : gmap string Z).
Implicit Types (calls : list (gmap string Z)).

(** X7: [rom_data_func] gives a value of 5 bits exactly at the sixteen
    addresses of a 4-bit address, which is why a ROM of bitwidth 5 and
    addrwidth 4 can hold it; it gives different data at different addresses,
    and the address is read back from the data as [(31 - data) / 2]. *)
Theorem rom_data_func_width (address : Z) :
  (fits 5 (rom_data_func address) = true ↔ 0 ≤ address < 16)
  ∧ (∀ other, rom_data_func address = rom_data_func other ↔ address = other)
  ∧ (31 - rom_data_func address) `div` 2 = address.
Proof.
  unfold rom_data_func. split; [|split].
  - rewrite fits_true. change (2 ^ 5) with 32. lia.
  - intros other. lia.
  - replace (31 - (31 - 2 * address)) with (address * 2) by lia. by apply Z.div_mul.
Qed.

Lemma rom1_contents : contents rom1 = rom_contents 4 (RomFunction rom_data_func).
Proof. reflexivity. Qed.

Lemma rom_data_fits (address : Z) :
  0 ≤ address < 2 ^ 4 → truncate 5 (rom_data_func address) = rom_data_func address.
Proof.
  intros Haddr. apply truncate_fits. unfold rom_data_func.
  change (2 ^ 4) with 16 in Haddr. change (2 ^ 5) with 32. lia.
Qed.

Lemma rom_read (contents_now : gmap Z Z) (address : Z) :
  contents_now = contents rom1 → 0 ≤ address < 2 ^ 4 →
  read 4 contents_now address = rom_data_func address.
Proof.
  intros -> Haddr. unfold read. rewrite (truncate_fits 4 address Haddr).
  by rewrite rom1_contents, (rom_contents_lookup 4 _ address Haddr).
Qed.

Lemma roms_outputs_step st st' a wires :
  storage_contents (memory_contents st) rom1 = contents rom1 →
  storage_contents (memory_contents st) rom2 = contents rom2 →
  step circuit st a = (Ok wires, st') →
  value wires rom_out_1 = rom_data_func (value a rom_add_1)
  ∧ value wires rom_out_2 = rom_data_func (value a rom_add_1)
  ∧ value wires rom_out_3 = rom_data_func (value a rom_add_2).
Proof.
  intros H1 H2 Hstep. pose proof (step_Ok _ _ _ _ _ Hstep) as (Hin & -> & _).
  rewrite <- roms_same_contents in H2.
  assert (0 ≤ value a rom_add_1 < 2 ^ 4) as Ha1.
  { apply (check_inputs_value circuit a rom_add_1 Hin). apply list_elem_of_here. }
  assert (0 ≤ value a rom_add_2 < 2 ^ 4) as Ha2.
  { apply (check_inputs_value circuit a rom_add_2 Hin).
    apply list_elem_of_further, list_elem_of_here. }
  unfold evaluate, sources. simpl. unfold nets. wire_values.
  unfold read_port. change (addrwidth rom1) with 4. change (addrwidth rom2) with 4.
  change (wire_bitwidth temp1) with 5. change (wire_bitwidth temp2) with 5.
  change (wire_bitwidth rom_out_1) with 5. change (wire_bitwidth rom_out_2) with 5.
  change (wire_bitwidth rom_out_3) with 5.
  rewrite (rom_read _ _ H1 Ha1), !(rom_read _ _ H2 Ha1), (rom_read _ _ H2 Ha2).
  by rewrite !rom_data_fits.
Qed.

(** X9: in every cycle of every simulation of the ROM circuit the outputs
    are the ROM data at the two address inputs: [rom_out_1] and [rom_out_2]
    are [31 - 2 * rom_in], and [rom_out_3], the second read port of [rom2],
    is [31 - 2 * rom_in_2], whatever the other port reads. *)
Theorem rom_outputs (memory_value_map : gmap string (gmap Z Z)) st0 calls :
  Simulation circuit memory_value_map = inr st0 →
  ∀ a wires st',
    step circuit (steps circuit st0 calls) a = (Ok wires, st') →
    value wires rom_out_1 = 31 - 2 * value a rom_add_1
    ∧ value wires rom_out_2 = 31 - 2 * value a rom_add_1
    ∧ value wires rom_out_3 = 31 - 2 * value a rom_add_2.
Proof.
  intros Hsim a wires st' Hstep.
  apply (roms_outputs_step _ _ _ _
           (rom_contents_fixed circuit _ _ rom1 calls Hsim rom1_in_circuit eq_refl)
           (rom_contents_fixed circuit _ _ rom2 calls Hsim rom2_in_circuit eq_refl) Hstep).
Qed.

Lemma rom_outputs_witness :
  Simulation circuit ∅ = inr power_on
  ∧ step circuit (steps circuit power_on [inputs 1 2]) (inputs 5 7)
    = (Ok (evaluate circuit (steps circuit power_on [inputs 1 2]) (inputs 5 7)),
       commit circuit (steps circuit power_on [inputs 1 2])
         (evaluate circuit (steps circuit power_on [inputs 1 2]) (inputs 5 7)))
  ∧ value (evaluate circuit (steps circuit power_on [inputs 1 2]) (inputs 5 7)) rom_out_1 = 21
  ∧ value (evaluate circuit (steps circuit power_on [inputs 1 2]) (inputs 5 7)) rom_out_3 = 17.
Proof.
  assert (Simulation circuit ∅ = inr power_on) as Hsim by (vm_compute; reflexivity).
  assert (step circuit (steps circuit power_on [inputs 1 2]) (inputs 5 7)
    = (Ok (evaluate circuit (steps circuit power_on [inputs 1 2]) (inputs 5 7)),
       commit circuit (steps circuit power_on [inputs 1 2])
         (evaluate circuit (steps circuit power_on [inputs 1 2]) (inputs 5 7)))) as Hstep
    by (vm_compute; reflexivity).
  destruct (rom_outputs ∅ power_on [inputs 1 2] Hsim _ _ _ Hstep) as (H1 & _ & H3).
  split; [exact Hsim|]. split; [exact Hstep|]. split; [exact H1 | exact H3].
Defined.

End RomsData.

Section RomsSimulation.

Import Roms.

Implicit Types (st : SimulationState) (a wires : gmap string Z).
Implicit Types (calls : list (gmap string Z)).

Lemma provided_inputs_Some (rom_in_2 : list Z) (cycle : nat) (x y : Z) :
  rom_in !! cycle = Some x → rom_in_2 !! cycle = Some y →
  provided_inputs rom_in_2 cycle = Some (inputs x y).
Proof.
  intros Hx Hy. unfold provided_inputs, simvals.
  cbn [mapM list_fmap fmap mbind mret option_bind option_ret option_fmap option_map snd fst].
  rewrite Hx, Hy. reflexivity.
Qed.

Lemma provided_inputs_None (rom_in_2 : list Z) (cycle : nat) :
  rom_in_2 !! cycle = None → provided_inputs rom_in_2 cycle = None.
Proof.
  intros Hy. unfold provided_inputs, simvals.
  cbn [mapM list_fmap fmap mbind mret option_bind option_ret option_fmap option_map snd fst].
  rewrite Hy. by destruct (rom_in !! cycle).
Qed.

Lemma rom_in_length : length rom_in = 20%nat.
Proof. reflexivity. Qed.

Lemma rom_in_valid : Forall (λ v, 0 ≤ v < 16) rom_in.
Proof. repeat constructor; lia. Qed.

(** The assignments of the twenty cycles, when there are draws for all. *)
Lemma provided_inputs_all (rom_in_2 : list Z) :
  (20 ≤ length rom_in_2)%nat →
  mapM (provided_inputs rom_in_2) (seq 0 (length rom_in))
  = Some (zip_with inputs rom_in rom_in_2).
Proof.
  intros Hlen. apply mapM_Some. apply Forall2_same_length_lookup_2.
  - rewrite length_seq, length_zip_with, rom_in_length. lia.
  - intros i cycle a [-> _]%lookup_seq (x & y & -> & Hx & Hy)%lookup_zip_with_Some.
    by apply provided_inputs_Some.
Qed.

Lemma provided_inputs_short (rom_in_2 : list Z) :
  (length rom_in_2 < 20)%nat →
  mapM (provided_inputs rom_in_2) (seq 0 (length rom_in)) = None.
Proof.
  intros Hlen. apply eq_None_not_Some. rewrite mapM_is_Some, Forall_forall.
  intros Hall.
  assert (length rom_in_2 ∈ seq 0 (length rom_in)) as Hmem
    by (apply elem_of_seq; rewrite rom_in_length; lia).
  apply Hall in Hmem. unfold compose in Hmem.
  rewrite provided_inputs_None in Hmem by by apply lookup_ge_None_2.
  by destruct Hmem.
Qed.

Lemma inputs_valid (x y : Z) :
  check_inputs circuit (inputs x y) = true ↔ 0 ≤ x < 16 ∧ 0 ≤ y < 16.
Proof.
  unfold check_inputs, inputs. simpl. unfold input_ok.
  rewrite lookup_insert_eq, lookup_insert_ne, lookup_singleton_eq by done.
  rewrite andb_true_r, andb_true_iff, !fits_true. done.
Qed.

Lemma inputs_values (x y : Z) :
  value (inputs x y) rom_add_1 = x ∧ value (inputs x y) rom_add_2 = y.
Proof.
  unfold value, inputs. simpl.
  by rewrite lookup_insert_eq, lookup_insert_ne, lookup_singleton_eq.
Qed.

Lemma calls_valid (l1 l2 : list Z) :
  (length l1 ≤ length l2)%nat → Forall (λ v, 0 ≤ v < 16) l1 →
  (forallb (check_inputs circuit) (zip_with inputs l1 l2) = true
   ↔ Forall (λ v, 0 ≤ v < 16) (take (length l1) l2)).
Proof.
  revert l2. induction l1 as [|x l1 IH]; intros l2 Hlen Hl1; simpl.
  - split; [by constructor|done].
  - destruct l2 as [|y l2]; simpl in *; [lia|].
    apply Forall_cons in Hl1 as [Hx Hl1].
    rewrite andb_true_iff, inputs_valid, Forall_cons, (IH l2) by (lia || done).
    split; [intros [[_ Hy] Hrest]|intros [Hy Hrest]]; auto.
Qed.

Lemma calls_columns (l1 l2 : list Z) :
  length l1 = length l2 →
  (λ a, value a rom_add_1) <$> zip_with inputs l1 l2 = l1
  ∧ (λ a, value a rom_add_2) <$> zip_with inputs l1 l2 = l2.
Proof.
  revert l2. induction l1 as [|x l1 IH]; intros [|y l2] Hlen; try done.
  simpl in Hlen. destruct (IH l2) as [H1 H2]; [lia|].
  destruct (inputs_values x y) as [Hx Hy].
  cbn [zip_with]. by rewrite !fmap_cons, Hx, Hy, H1, H2.
Qed.

Lemma trace_columns (f g : gmap string Z → Z) calls (trace : list (gmap string Z)) :
  Forall2 (λ a wires, f wires = g a) calls trace → f <$> trace = g <$> calls.
Proof. induction 1 as [|a wires calls trace Heq _ IH]; [done|]. by rewrite !fmap_cons, Heq, IH. Qed.

(** X10: with twenty draws for [rom_in_2], each of them in [range(0, 16)],
    the simulation cell of the ROMs runs all twenty cycles, and its trace
    shows on [rom_out_1] the ROM data at the addresses of [rom_in], on
    [rom_out_3] the ROM data at the drawn addresses, and 1 on [cmp_out]. *)
Theorem roms_simulate_outputs (rom_in_2 : list Z) :
  length rom_in_2 = 20%nat → Forall (λ v, 0 ≤ v < 16) rom_in_2 →
  ∃ trace st,
    simulate rom_in_2 = Some (trace, st)
    ∧ length trace = 20%nat ∧ cycle_index st = 20%nat
    ∧ (λ wires, value wires rom_out_1) <$> trace = rom_data_func <$> rom_in
    ∧ (λ wires, value wires rom_out_3) <$> trace = rom_data_func <$> rom_in_2
    ∧ (λ wires, value wires cmp_out) <$> trace = replicate 20 1.
Proof.
  intros Hlen Hrange. unfold simulate.
  rewrite power_on_Simulation_roms, provided_inputs_all by lia.
  cbn [mbind option_bind].
  assert (forallb (check_inputs circuit) (zip_with inputs rom_in rom_in_2) = true) as Hvalid.
  { apply calls_valid; [rewrite rom_in_length; lia | exact rom_in_valid |].
    rewrite rom_in_length, <- Hlen, firstn_all. exact Hrange. }
  destruct (run_valid circuit power_on _ Hvalid) as (trace & Hrun & Htrace).
  rewrite Hrun. exists trace, (steps circuit power_on (zip_with inputs rom_in rom_in_2)).
  rewrite length_zip_with, rom_in_length, Hlen in Htrace.
  split; [done|]. split; [exact Htrace|].
  split.
  { rewrite (steps_valid_cycle_index circuit _ _ Hvalid), length_zip_with, rom_in_length, Hlen.
    reflexivity. }
  apply run_steps in Hrun as [_ Hall].
  destruct (calls_columns rom_in rom_in_2) as [Hc1 Hc2]; [by rewrite rom_in_length|].
  assert (Forall2 (λ a wires,
            value wires rom_out_1 = rom_data_func (value a rom_add_1)
            ∧ value wires rom_out_3 = rom_data_func (value a rom_add_2)
            ∧ value wires cmp_out = 1) (zip_with inputs rom_in rom_in_2) trace) as Hout.
  { eapply Forall2_impl; [exact Hall|]. intros a wires (k & _ & Hstep). simpl in Hstep.
    destruct (step circuit _ a) as [res st1] eqn:Hs. simpl in Hstep. subst res.
    destruct (rom_outputs ∅ power_on _ power_on_Simulation_roms _ _ _ Hs) as (H1 & _ & H3).
    split; [exact H1|]. split; [exact H3|].
    apply (roms_step _ _ _ _
             (λ A, roms_read_alike ∅ power_on _ A power_on_Simulation_roms) Hs). }
  split; [|split].
  - rewrite <- Hc1 at 1. rewrite <- list_fmap_compose. apply trace_columns.
    eapply Forall2_impl; [exact Hout|]. by intros a wires (H1 & _).
  - rewrite <- Hc2 at 1. rewrite <- list_fmap_compose. apply trace_columns.
    eapply Forall2_impl; [exact Hout|]. by intros a wires (_ & H3 & _).
  - apply list_eq_same_length with 20%nat;
      [by rewrite length_replicate | by rewrite length_fmap |].
    intros i v1 v2 Hi Hv1 Hv2. apply lookup_replicate in Hv2 as [-> _].
    rewrite list_lookup_fmap in Hv1. destruct (trace !! i) as [wires|] eqn:Hw; [|done].
    injection Hv1 as <-. apply (Forall2_lookup_r _ _ _ _ _ Hout) in Hw as (a & _ & _ & _ & Hcmp).
    done.
Qed.

Lemma roms_simulate_outputs_witness :
  length (replicate 20 3) = 20%nat
  ∧ Forall (λ v, 0 ≤ v < 16) (replicate 20 3)
  ∧ ∃ trace st,
      simulate (replicate 20 3) = Some (trace, st)
      ∧ length trace = 20%nat ∧ cycle_index st = 20%nat
      ∧ (λ wires, value wires rom_out_1) <$> trace = rom_data_func <$> rom_in
      ∧ (λ wires, value wires rom_out_3) <$> trace = rom_data_func <$> replicate 20 3
      ∧ (λ wires, value wires cmp_out) <$> trace = replicate 20 1.
Proof.
  assert (length (replicate 20 3) = 20%nat) as Hlen by reflexivity.
  assert (Forall (λ v, 0 ≤ v < 16) (replicate 20 3)) as Hrange
    by (apply Forall_replicate; lia).
  split; [exact Hlen|]. split; [exact Hrange|].
  exact (roms_simulate_outputs (replicate 20 3) Hlen Hrange).
Defined.

(** X11: the simulation cell of the ROMs ends without an exception exactly
    when there are at least twenty draws and the first twenty are addresses
    of the ROM: a shorter list raises when the draws run out, and a draw
    outside [[0, 16)] is refused by [step]. *)
Theorem roms_simulate_defined (rom_in_2 : list Z) :
  is_Some (simulate rom_in_2)
  ↔ (20 ≤ length rom_in_2)%nat ∧ Forall (λ v, 0 ≤ v < 16) (take 20 rom_in_2).
Proof.
  unfold simulate. rewrite power_on_Simulation_roms.
  destruct (decide (20 ≤ length rom_in_2)%nat) as [Hlen|Hlen].
  - rewrite provided_inputs_all by done. cbn [mbind option_bind].
    pose proof (calls_valid rom_in rom_in_2) as Hvalid. rewrite rom_in_length in Hvalid.
    rewrite <- Hvalid by (lia || exact rom_in_valid).
    destruct (forallb (check_inputs circuit) (zip_with inputs rom_in rom_in_2)) eqn:Hall.
    + destruct (run_valid circuit power_on _ Hall) as (trace & -> & _).
      split; [by intros _ | intros _; by eexists].
    + rewrite (run_invalid circuit power_on _ Hall). split; [by intros [? ?]|by intros [_ ?]].
  - rewrite provided_inputs_short by lia. cbn [mbind option_bind]. split; [by intros [? ?]|]. intros [? _]. lia.
Qed.

End RomsSimulation.

(** X14: [memories_write_then_read], on the wires of the notebook: the
    cycle that writes through [mem1[waddr]] still shows on [rdata1] what
    [mem1] held, and the next cycle, read at the written address, shows the
    written [wdata].  Here at power-on, writing 7 to address 3. *)

Section MemoriesReadBack.

Import Memories.

Lemma memories_write_then_read_witness :
  step circuit power_on (inputs 1 3 7 3)
  = (Ok (evaluate circuit power_on (inputs 1 3 7 3)),
     commit circuit power_on (evaluate circuit power_on (inputs 1 3 7 3)))
  ∧ step circuit (commit circuit power_on (evaluate circuit power_on (inputs 1 3 7 3)))
      (inputs 0 0 0 3)
    = (Ok (evaluate circuit
             (commit circuit power_on (evaluate circuit power_on (inputs 1 3 7 3)))
             (inputs 0 0 0 3)),
       commit circuit (commit circuit power_on (evaluate circuit power_on (inputs 1 3 7 3)))
         (evaluate circuit
            (commit circuit power_on (evaluate circuit power_on (inputs 1 3 7 3)))
            (inputs 0 0 0 3)))
  ∧ value (inputs 1 3 7 3) we = 1
  ∧ value (inputs 0 0 0 3) raddr = value (inputs 1 3 7 3) waddr
  ∧ value (evaluate circuit power_on (inputs 1 3 7 3)) rdata1 = 9
  ∧ value (evaluate circuit
             (commit circuit power_on (evaluate circuit power_on (inputs 1 3 7 3)))
             (inputs 0 0 0 3)) rdata1 = 7.
Proof.
  assert (step circuit power_on (inputs 1 3 7 3)
    = (Ok (evaluate circuit power_on (inputs 1 3 7 3)),
       commit circuit power_on (evaluate circuit power_on (inputs 1 3 7 3)))) as Hstep
    by (vm_compute; reflexivity).
  assert (step circuit (commit circuit power_on (evaluate circuit power_on (inputs 1 3 7 3)))
      (inputs 0 0 0 3)
    = (Ok (evaluate circuit
             (commit circuit power_on (evaluate circuit power_on (inputs 1 3 7 3)))
             (inputs 0 0 0 3)),
       commit circuit (commit circuit power_on (evaluate circuit power_on (inputs 1 3 7 3)))
         (evaluate circuit
            (commit circuit power_on (evaluate circuit power_on (inputs 1 3 7 3)))
            (inputs 0 0 0 3)))) as Hstep'
    by (vm_compute; reflexivity).
  assert (value (inputs 1 3 7 3) we = 1) as Hwe by (vm_compute; reflexivity).
  assert (value (inputs 0 0 0 3) raddr = value (inputs 1 3 7 3) waddr) as Hraddr
    by (vm_compute; reflexivity).
  destruct (memories_write_then_read _ _ _ _ _ _ _ Hstep Hstep' Hwe Hraddr) as [Hnow Hnext].
  split; [exact Hstep|]. split; [exact Hstep'|]. split; [exact Hwe|]. split; [exact Hraddr|].
  split; [vm_compute; reflexivity|]. rewrite Hnext. vm_compute; reflexivity.
Defined.

End MemoriesReadBack.

(** ** The round trip through the register-indexed write port *)

Section RoundTrip.

Import Memories.

Implicit Types (st : SimulationState) (a wires : gmap string Z).
Implicit Types (calls : list (gmap string Z)).

Lemma write_log_cons a calls :
  write_log (a :: calls)
  = (if decide (check_inputs circuit a = true ∧ value a we = 1)
     then [(value a waddr, value a wdata)] else []) ++ write_log calls.
Proof. unfold write_log. rewrite filter_cons. by case_decide. Qed.

Lemma write_log_app calls1 calls2 :
  write_log (calls1 ++ calls2) = write_log calls1 ++ write_log calls2.
Proof. unfold write_log. by rewrite filter_app, fmap_app. Qed.

Lemma write_log_we_cycles calls : we_cycles calls = Z.of_nat (length (write_log calls)).
Proof. unfold we_cycles, write_log. by rewrite length_fmap. Qed.

(** The memories after any sequence of [step] calls: [mem1] has taken the
    writes of the log at their addresses, [mem2] has taken their data at the
    successive values of [count]. *)
Lemma memories_after calls st (k : Z) :
  register_values st = {[ "count" := k `mod` 8 ]} →
  storage_contents (memory_contents (steps circuit st calls)) mem1
  = written (storage_contents (memory_contents st) mem1) (write_log calls)
  ∧ storage_contents (memory_contents (steps circuit st calls)) mem2
    = written (storage_contents (memory_contents st) mem2)
        (imap (λ i d, ((k + Z.of_nat i) `mod` 8, d)) (write_log calls).*2).
Proof.
  revert st k. induction calls as [|a calls IH]; intros st k Hregs; [done|].
  rewrite steps_cons, write_log_cons.
  destruct (step circuit st a) as [[wires|e] st'] eqn:Hstep; simpl.
  - destruct (memories_step _ _ _ _ _ Hregs Hstep) as (Hin & _ & Hnext & Hregs').
    rewrite Hnext in Hregs'.
    destruct (memories_transition _ _ _ _ Hstep) as [(H0 & H1 & H2)|(H1 & Hm1 & Hm2)].
    + rewrite decide_False by (intros [_ ?]; congruence). simpl.
      rewrite H0, select_0, Z.mod_mod in Hregs' by done.
      destruct (IH st' k Hregs') as [-> ->]. by rewrite H1, H2.
    + rewrite decide_True by done. simpl.
      rewrite H1, select_1, Z.add_mod_idemp_l in Hregs' by done.
      destruct (IH st' (k + 1) Hregs') as [-> ->].
      rewrite Hm1, Hm2, Hregs, (value_singleton count), Z.add_0_r.
      split; [done|]. f_equal. apply imap_ext. intros i d _. simpl. do 2 f_equal. lia.
  - apply step_Err in Hstep as (-> & _ & Hin).
    rewrite decide_False by (intros [? _]; congruence). simpl. by apply IH.
Qed.

Lemma round_trip_lookup (contents : gmap Z Z) (A : Z) :
  written contents [(0, 1); (1, 2); (2, 3); (3, 4); (4, 5); (5, 6); (6, 7); (7, 8)] !! A
  = (if bool_decide (0 ≤ A < 8) then Some (A + 1) else contents !! A).
Proof.
  unfold written. simpl. case_bool_decide as Hrange.
  - assert (A = 0 ∨ A = 1 ∨ A = 2 ∨ A = 3 ∨ A = 4 ∨ A = 5 ∨ A = 6 ∨ A = 7) as Hcases by lia.
    destruct_or!; subst A; repeat (rewrite lookup_insert_ne by done); apply lookup_insert_eq.
  - by repeat (rewrite lookup_insert_ne by lia).
Qed.

Lemma round_trip_map (contents : gmap Z Z) :
  (∀ A, is_Some (contents !! A) → 0 ≤ A < 8) →
  written contents [(0, 1); (1, 2); (2, 3); (3, 4); (4, 5); (5, 6); (6, 7); (7, 8)]
  = list_to_map [(0, 1); (1, 2); (2, 3); (3, 4); (4, 5); (5, 6); (6, 7); (7, 8)].
Proof.
  intros Hdom. apply map_eq. intros A. rewrite round_trip_lookup.
  case_bool_decide as Hrange.
  - assert (A = 0 ∨ A = 1 ∨ A = 2 ∨ A = 3 ∨ A = 4 ∨ A = 5 ∨ A = 6 ∨ A = 7) as Hcases by lia.
    destruct_or!; subst A; reflexivity.
  - simpl. repeat (rewrite lookup_insert_ne by lia). rewrite lookup_empty.
    apply eq_None_not_Some. intros HA. by apply Hrange, Hdom.
Qed.

Lemma scan_lookup (i : nat) (x : Z) :
  [0; 1; 2; 3; 4; 5; 6; 7] !! i = Some x → x = Z.of_nat i ∧ (i < 8)%nat.
Proof. do 8 (destruct i as [|i]; [intros [= <-]; split; [done|lia]|]). done. Qed.

Lemma validate_compares st st' a wires :
  step circuit st a = (Ok wires, st') →
  value wires validate = 1 ↔ value a waddr = value (register_values st) count.
Proof.
  intros Hstep. rewrite (memories_validate _ _ _ _ Hstep). unfold equal.
  case_bool_decide; split; done.
Qed.

(** In a write cycle of a run that starts at power-on, [count] is the number
    of writes made so far, which is the position of the write in the log. *)
Lemma write_cycle_position st0 calls (n : nat) a wires st' :
  register_values st0 = {[ "count" := 0 ]} →
  calls !! n = Some a →
  step circuit (steps circuit st0 (take n calls)) a = (Ok wires, st') →
  value a we = 1 →
  value (register_values (steps circuit st0 (take n calls))) count
  = Z.of_nat (length (write_log (take n calls))) `mod` 8
  ∧ (write_log calls).*1 !! length (write_log (take n calls)) = Some (value a waddr).
Proof.
  intros Hregs0 Hn Hstep Hwe. pose proof (step_Ok _ _ _ _ _ Hstep) as (Hin & _ & _).
  split.
  - rewrite (count_after (take n calls) st0 0 Hregs0), (value_singleton count).
    by rewrite Z.add_0_l, write_log_we_cycles.
  - assert (write_log calls
            = write_log (take n calls)
              ++ (value a waddr, value a wdata) :: write_log (drop (S n) calls)) as ->.
    { transitivity (write_log (take n calls ++ a :: drop (S n) calls));
        [by rewrite take_drop_middle|].
      by rewrite write_log_app, write_log_cons, decide_True. }
    rewrite fmap_app, fmap_cons.
    apply list_lookup_middle. by rewrite length_fmap.
Qed.

(** C7: in the two-memory circuit, started by [Simulation] and driven by any
    sequence of [step] calls, idle and failed calls included, whose write
    cycles are eight and carry the data 1..8: [mem2], written at the
    register [count], ends up holding 1..8 at the addresses 0..7, whatever
    [waddr] carried; [validate] is 1 in a cycle exactly when [waddr] equals
    [count]; and when the write cycles carry the addresses 0..7 on [waddr],
    [mem1] holds the same mapping {0:1, ..., 7:8} and in every cycle in
    which a write occurs [waddr] equals [count] and [validate] is 1.  A
    memory whose initial contents have no address outside 0..7 holds exactly
    that mapping. *)
Theorem register_indexed_round_trip (memory_value_map : gmap string (gmap Z Z)) st0 calls :
  Simulation circuit memory_value_map = inr st0 →
  (write_log calls).*2 = [1; 2; 3; 4; 5; 6; 7; 8] →
  (∀ A, storage_contents (memory_contents (steps circuit st0 calls)) mem2 !! A
        = (if bool_decide (0 ≤ A < 8) then Some (A + 1)
           else initial_contents memory_value_map mem2 !! A))
  ∧ ((∀ A, is_Some (initial_contents memory_value_map mem2 !! A) → 0 ≤ A < 8) →
     storage_contents (memory_contents (steps circuit st0 calls)) mem2
     = list_to_map [(0, 1); (1, 2); (2, 3); (3, 4); (4, 5); (5, 6); (6, 7); (7, 8)])
  ∧ (∀ (n : nat) a wires st',
       calls !! n = Some a →
       step circuit (steps circuit st0 (take n calls)) a = (Ok wires, st') →
       value wires validate = 1
       ↔ value a waddr = value (register_values (steps circuit st0 (take n calls))) count)
  ∧ ((write_log calls).*1 = [0; 1; 2; 3; 4; 5; 6; 7] →
     (∀ A, storage_contents (memory_contents (steps circuit st0 calls)) mem1 !! A
           = (if bool_decide (0 ≤ A < 8) then Some (A + 1)
              else initial_contents memory_value_map mem1 !! A))
     ∧ ((∀ A, is_Some (initial_contents memory_value_map mem1 !! A) → 0 ≤ A < 8) →
        storage_contents (memory_contents (steps circuit st0 calls)) mem1
        = list_to_map [(0, 1); (1, 2); (2, 3); (3, 4); (4, 5); (5, 6); (6, 7); (7, 8)])
     ∧ ∀ (n : nat) a wires st',
         calls !! n = Some a →
         step circuit (steps circuit st0 (take n calls)) a = (Ok wires, st') →
         value a we = 1 →
         value a waddr = value (register_values (steps circuit st0 (take n calls))) count
         ∧ value wires validate = 1).
Proof.
  intros Hsim Hdata.
  pose proof (Simulation_inr _ _ _ Hsim) as (_ & _ & Hregs0 & _).
  destruct (memories_after calls st0 0 Hregs0) as [Hmem1 Hmem2].
  rewrite (Simulation_contents _ _ _ mem1 Hsim mem1_in_circuit) in Hmem1.
  rewrite (Simulation_contents _ _ _ mem2 Hsim mem2_in_circuit) in Hmem2.
  rewrite Hdata in Hmem2.
  change (imap _ [1; 2; 3; 4; 5; 6; 7; 8])
    with [(0, 1); (1, 2); (2, 3); (3, 4); (4, 5); (5, 6); (6, 7); (7, 8)] in Hmem2.
  split; [intros A; rewrite Hmem2; apply round_trip_lookup|].
  split; [intros Hdom; rewrite Hmem2; by apply round_trip_map|].
  split; [intros n a wires st' _ Hstep; by apply (validate_compares _ _ _ _ Hstep)|].
  intros Haddr.
  rewrite <- (zip_fst_snd (write_log calls)), Haddr, Hdata in Hmem1.
  change (zip _ _) with [(0, 1); (1, 2); (2, 3); (3, 4); (4, 5); (5, 6); (6, 7); (7, 8)]
    in Hmem1.
  split; [intros A; rewrite Hmem1; apply round_trip_lookup|].
  split; [intros Hdom; rewrite Hmem1; by apply round_trip_map|].
  intros n a wires st' Hn Hstep Hwe.
  destruct (write_cycle_position _ _ _ _ _ _ Hregs0 Hn Hstep Hwe) as [Hcount Hpos].
  rewrite Haddr in Hpos. apply scan_lookup in Hpos as [Hpos Hlt].
  assert (value a waddr = value (register_values (steps circuit st0 (take n calls))) count)
    as Hsame.
  { rewrite Hcount, Hpos. symmetry. apply Z.mod_small. lia. }
  split; [exact Hsame|]. by apply (validate_compares _ _ _ _ Hstep).
Qed.

Lemma stimulus_write_log :
  write_log stimulus = [(0, 1); (1, 2); (2, 3); (3, 4); (4, 5); (5, 6); (6, 7); (7, 8)].
Proof. vm_compute. reflexivity. Qed.

Lemma register_indexed_round_trip_witness :
  Simulation circuit memvals = inr power_on
  ∧ (write_log stimulus).*2 = [1; 2; 3; 4; 5; 6; 7; 8]
  ∧ (write_log stimulus).*1 = [0; 1; 2; 3; 4; 5; 6; 7]
  ∧ storage_contents (memory_contents (steps circuit power_on stimulus)) mem1
    = list_to_map [(0, 1); (1, 2); (2, 3); (3, 4); (4, 5); (5, 6); (6, 7); (7, 8)]
  ∧ storage_contents (memory_contents (steps circuit power_on stimulus)) mem2
    = list_to_map [(0, 1); (1, 2); (2, 3); (3, 4); (4, 5); (5, 6); (6, 7); (7, 8)].
Proof.
  assert (Simulation circuit memvals = inr power_on) as Hsim by (vm_compute; reflexivity).
  assert ((write_log stimulus).*2 = [1; 2; 3; 4; 5; 6; 7; 8]) as Hdata
    by (vm_compute; reflexivity).
  assert ((write_log stimulus).*1 = [0; 1; 2; 3; 4; 5; 6; 7]) as Haddr
    by (vm_compute; reflexivity).
  assert (∀ A, is_Some (mem1_init !! A) → 0 ≤ A < 8) as Hdom.
  { intros A [v Hv]. destruct (mem_init_lookup A) as [Hlookup _].
    rewrite Hlookup in Hv. by case_bool_decide. }
  destruct (register_indexed_round_trip memvals power_on stimulus Hsim Hdata)
    as (_ & Hmem2 & _ & Hmem1).
  destruct (Hmem1 Haddr) as (_ & Hmem1' & _).
  split; [exact Hsim|]. split; [exact Hdata|]. split; [exact Haddr|].
  split; [exact (Hmem1' Hdom) | exact (Hmem2 Hdom)].
Defined.

End RoundTrip.
